(** * Sigma value types: a shallow embedding of [sigma/types.py]

    The development follows the Python module class by class.  Python [str]
    values are sequences of characters, modelled as [list ascii] (the code
    treats all characters alike but the two wildcard designators and the
    backslash); exceptions are modelled by an explicit [result] type. *)

From Stdlib Require Import Ascii String ZArith QArith Qround SpecFloat.
From Stdlib Require Import Lia Bool Arith List.
Import ListNotations.
Close Scope Q_scope.

Set Implicit Arguments.

(** ** Python-level preliminaries *)

(** A Python [str]. *)
Definition str := list ascii.

(** Reading a literal: [py "a*b"] is the Python string of these characters
    (a backslash in the literal is one backslash character). *)
Definition py (lit : string) : str := list_ascii_of_string lit.

(** The exceptions that the modelled code can raise or let escape. *)
Inductive exn : Set :=
| SigmaValueError
| SigmaRegularExpressionError
| NotImplementedError
| IndexError
| TypeError
| OverflowError.

Inductive result (A : Type) : Type :=
| Ok (a : A)
| Raise (e : exn).

Arguments Ok {A} a.
Arguments Raise {A} e.

Definition bind {A B : Type} (m : result A) (k : A -> result B) : result B :=
  match m with
  | Ok a => k a
  | Raise e => Raise e
  end.

Notation "x <- m ;; k" := (bind m (fun x => k))
  (at level 61, m at next level, right associativity).

(** [c in text] for a one-character [c]. *)
Definition char_in (c : ascii) (text : str) : bool :=
  existsb (Ascii.eqb c) text.

(** [a == b] on [str]. *)
Fixpoint str_eqb (a b : str) : bool :=
  match a, b with
  | [], [] => true
  | x :: a', y :: b' => Ascii.eqb x y && str_eqb a' b'
  | _, _ => false
  end.

(** ** Module constants *)

Inductive SpecialChars : Set :=
| WILDCARD_MULTI
| WILDCARD_SINGLE.

Definition escape_char : ascii := "\"%char.

(** The dict [char_mapping], as a lookup function. *)
Definition char_mapping (c : ascii) : option SpecialChars :=
  if Ascii.eqb c "*"%char then Some WILDCARD_MULTI
  else if Ascii.eqb c "?"%char then Some WILDCARD_SINGLE
  else None.

(** The inverted dict [special_char_mapping]. *)
Definition special_char_mapping (k : SpecialChars) : ascii :=
  match k with
  | WILDCARD_MULTI => "*"%char
  | WILDCARD_SINGLE => "?"%char
  end.

Definition SpecialChars_eqb (a b : SpecialChars) : bool :=
  match a, b with
  | WILDCARD_MULTI, WILDCARD_MULTI => true
  | WILDCARD_SINGLE, WILDCARD_SINGLE => true
  | _, _ => false
  end.

(** ** SigmaString *)

(** An element of the tuple [SigmaString.s]: [Union[str, SpecialChars]]. *)
Inductive item : Set :=
| Str (text : str)
| Special (k : SpecialChars).

Record SigmaString : Set := mkSigmaString {
  s : list item;
  protected : bool
}.

(** The Python values that reach the operators of this module. *)
Inductive py_value : Set :=
| PyInt (z : Z)
| PyFloat (f : spec_float)
| PyStr (text : str)
| PyNone
| PySpecialChars (k : SpecialChars)
| PySigmaString (w : SigmaString).

(** What [__add__] and [__radd__] hand back to the interpreter. *)
Inductive binop_result : Set :=
| Returned (w : SigmaString)
| NotImplemented.

(** Python indexing [t[i]] of a tuple, negative indices counting from the
    end, [IndexError] outside [-len t <= i < len t]. *)
Definition getitem {A : Type} (t : list A) (i : Z) : result A :=
  let n := Z.of_nat (length t) in
  let j := if (i <? 0)%Z then (n + i)%Z else i in
  if ((j <? 0) || (n <=? j))%Z then Raise IndexError
  else match nth_error t (Z.to_nat j) with
       | Some x => Ok x
       | None => Raise IndexError
       end.

(** [a.startswith(b)] on [str]. *)
Fixpoint str_startswith (a b : str) {struct b} : bool :=
  match b, a with
  | [], _ => true
  | y :: b', x :: a' => Ascii.eqb x y && str_startswith a' b'
  | _ :: _, [] => false
  end.

(** [a.endswith(b)] on [str]: [b] is compared with the last [len b]
    characters of [a]. *)
Definition str_endswith (a b : str) : bool :=
  (length b <=? length a) && str_eqb (skipn (length a - length b) a) b.

(** The local variables of the loop in [SigmaString.__init__]. *)
Record init_state : Set := mkInit {
  r : list item;
  acc : str;
  escaped : bool
}.

(** An atomic unit yielded by [SigmaString.__iter__]: a one-character string
    or a special character. *)
Inductive unit_item : Set :=
| Char (c : ascii)
| Wild (k : SpecialChars).

Module SigmaString.

(** One iteration of [for c in s] in [__init__]. *)
Definition init_step (st : init_state) (c : ascii) : init_state :=
  if escaped st then
    if (match char_mapping c with Some _ => true | None => false end)
       || Ascii.eqb c escape_char
    then mkInit (r st) (acc st ++ [c]) false
    else mkInit (r st) (acc st ++ [escape_char; c]) false
  else if Ascii.eqb c escape_char then
    mkInit (r st) (acc st) true
  else
    match char_mapping c with
    | Some k =>
        let r1 := if str_eqb (acc st) [] then r st else r st ++ [Str (acc st)] in
        mkInit (r1 ++ [Special k]) [] false
    | None => mkInit (r st) (acc st ++ [c]) false
    end.

Definition init_loop (raw : str) : init_state :=
  fold_left init_step raw (mkInit [] [] false).

(** The statements after the loop. *)
Definition init_finish (st : init_state) : SigmaString :=
  let acc1 := if escaped st then acc st ++ [escape_char] else acc st in
  let r1 := if str_eqb acc1 [] then r st else r st ++ [Str acc1] in
  mkSigmaString r1 true.

Definition __init__ (s : option str) : SigmaString :=
  let s := match s with None => [] | Some s => s end in
  init_finish (init_loop s).

Definition __add__ (self : SigmaString) (other : py_value) : binop_result :=
  let s0 := __init__ None in
  match other with
  | PySigmaString o => Returned (mkSigmaString (s self ++ s o) (protected s0))
  | PyStr text => Returned (mkSigmaString (s self ++ [Str text]) (protected s0))
  | PySpecialChars k => Returned (mkSigmaString (s self ++ [Special k]) (protected s0))
  | _ => NotImplemented
  end.

Definition __radd__ (self : SigmaString) (other : py_value) : binop_result :=
  match other with
  | PyStr text =>
      let s0 := __init__ None in
      Returned (mkSigmaString (Str text :: s self) (protected s0))
  | PySpecialChars k =>
      let s0 := __init__ None in
      Returned (mkSigmaString (Special k :: s self) (protected s0))
  | _ => NotImplemented
  end.

Definition item_eqb (a b : item) : bool :=
  match a, b with
  | Str x, Str y => str_eqb x y
  | Special k, Special k' => SpecialChars_eqb k k'
  | _, _ => false
  end.

(** Tuple comparison [self.s == other.s]. *)
Fixpoint tuple_eqb (a b : list item) : bool :=
  match a, b with
  | [], [] => true
  | x :: a', y :: b' => item_eqb x y && tuple_eqb a' b'
  | _, _ => false
  end.

(** The [str] branch re-enters [__eq__] with a freshly parsed
    [SigmaString], which takes the second branch. *)
Definition __eq__ (self : SigmaString) (other : py_value) : result bool :=
  match other with
  | PyStr text => Ok (tuple_eqb (s self) (s (__init__ (Some text))))
  | PySigmaString o => Ok (tuple_eqb (s self) (s o))
  | _ => Raise NotImplementedError
  end.

Definition __str__ (self : SigmaString) : str :=
  flat_map (fun it => match it with
                      | Str text => text
                      | Special k => [special_char_mapping k]
                      end) (s self).

Definition __len__ (self : SigmaString) : nat := length (__str__ self).

(** [isinstance(val, type(c))] holds when [c] and [val] are both [str] or
    both [SpecialChars]; in every other case the answer is [False]. *)
Definition startswith (self : SigmaString) (val : py_value) : result bool :=
  c <- getitem (s self) 0 ;;
  match c, val with
  | Str text, PyStr v => Ok (str_startswith text v)
  | Special k, PySpecialChars k' => Ok (SpecialChars_eqb k k')
  | _, _ => Ok false
  end.

Definition endswith (self : SigmaString) (val : py_value) : result bool :=
  c <- getitem (s self) (-1) ;;
  match c, val with
  | Str text, PyStr v => Ok (str_endswith text v)
  | Special k, PySpecialChars k' => Ok (SpecialChars_eqb k k')
  | _, _ => Ok false
  end.

Definition contains_special (self : SigmaString) : bool :=
  existsb (fun it => match it with Special _ => true | Str _ => false end)
          (s self).

(** The units the generator [__iter__] yields, in order. *)
Definition __iter__ (self : SigmaString) : list unit_item :=
  flat_map (fun it => match it with
                      | Str text => map Char text
                      | Special k => [Wild k]
                      end) (s self).

(** [s += x] where [x] may be [None]. *)
Definition iadd (s : str) (x : option str) : result str :=
  match x with
  | Some text => Ok (s ++ text)
  | None => Raise TypeError
  end.

(** [x or ""]. *)
Definition or_empty (x : option str) : str :=
  match x with
  | Some text => text
  | None => []
  end.

(** The body of [for c in self] in [convert]; membership in the frozenset
    [escaped_chars] is membership in the characters it was built from. *)
Definition convert_body (escape_char wildcard_multi wildcard_single : option str)
    (filter_chars escaped_chars : str) (s : str) (c : unit_item) : result str :=
  match c with
  | Char ch =>
      if char_in ch filter_chars then Ok s
      else
        s1 <- (if char_in ch escaped_chars then iadd s escape_char else Ok s) ;;
        Ok (s1 ++ [ch])
  | Wild WILDCARD_MULTI =>
      match wildcard_multi with
      | Some text => Ok (s ++ text)
      | None => Raise SigmaValueError
      end
  | Wild WILDCARD_SINGLE =>
      match wildcard_single with
      | Some text => Ok (s ++ text)
      | None => Raise SigmaValueError
      end
  end.

(** A [for] loop whose body may raise. *)
Fixpoint for_loop {A S : Type} (body : S -> A -> result S) (items : list A)
    (st : S) : result S :=
  match items with
  | [] => Ok st
  | x :: items' => st1 <- body st x ;; for_loop body items' st1
  end.

Definition convert (self : SigmaString)
    (escape_char wildcard_multi wildcard_single : option str)
    (add_escaped filter_chars : str) : result str :=
  let escaped_chars :=
    or_empty wildcard_multi ++ or_empty wildcard_single ++ add_escaped in
  for_loop (convert_body escape_char wildcard_multi wildcard_single
                         filter_chars escaped_chars)
           (__iter__ self) [].

End SigmaString.

(** [tokenize] is the constructor applied to a raw string. *)
Definition tokenize (raw : str) : SigmaString := SigmaString.__init__ (Some raw).

(** The default arguments of [convert]. *)
Definition convert_default (self : SigmaString) : result str :=
  SigmaString.convert self (Some (py "\")) (Some (py "*")) (Some (py "?")) [] [].

(** ** SigmaNumber *)

Record SigmaNumber : Set := mkSigmaNumber { number : Z }.

(** What the builtin [int] does with its argument. *)
Inductive int_outcome : Set :=
| IntOk (z : Z)
| IntValueError
| IntOverflowError
| IntTypeError.

(** [int(f)] for a float: the integral part, digits after the point
    discarded; infinities and NaN have none. *)
Definition int_of_float (f : spec_float) : int_outcome :=
  match f with
  | S754_zero _ => IntOk 0
  | S754_finite sign m e =>
      let magnitude :=
        if (0 <=? e)%Z then Z.shiftl (Zpos m) e else Z.shiftr (Zpos m) (- e) in
      IntOk (if sign then (- magnitude)%Z else magnitude)
  | S754_infinity _ => IntOverflowError
  | S754_nan => IntValueError
  end.

(** The builtin [int].  Its reading of a [str] argument is the
    interpreter's integer-literal parser, taken here as [int_of_str]:
    [Some z] for the parsed value, [None] where [int] raises
    [ValueError]. *)
Definition builtin_int (int_of_str : str -> option Z) (x : py_value) : int_outcome :=
  match x with
  | PyInt z => IntOk z
  | PyFloat f => int_of_float f
  | PyStr text =>
      match int_of_str text with
      | Some z => IntOk z
      | None => IntValueError
      end
  | PyNone | PySpecialChars _ | PySigmaString _ => IntTypeError
  end.

Module SigmaNumber.

(** The dataclass constructor: the field is assigned, then
    [__post_init__] replaces it by [int(self.number)], turning a
    [ValueError] into [SigmaValueError]; other exceptions of [int] pass. *)
Definition __post_init__ (int_of_str : str -> option Z) (number : py_value)
    : result SigmaNumber :=
  match builtin_int int_of_str number with
  | IntOk z => Ok (mkSigmaNumber z)
  | IntValueError => Raise SigmaValueError
  | IntOverflowError => Raise OverflowError
  | IntTypeError => Raise TypeError
  end.

End SigmaNumber.

(** A literal parser that accepts plain runs of decimal digits; it stands
    in for the interpreter's parser where a concrete one is needed. *)
Definition digit_value (c : ascii) : option Z :=
  let n := Z.of_nat (nat_of_ascii c) in
  if ((48 <=? n) && (n <=? 57))%Z then Some (n - 48)%Z else None.

Fixpoint digits_value (text : str) (sofar : Z) : option Z :=
  match text with
  | [] => Some sofar
  | c :: text' =>
      match digit_value c with
      | Some d => digits_value text' (10 * sofar + d)
      | None => None
      end
  end.

Definition decimal_literal (text : str) : option Z :=
  match text with
  | [] => None
  | _ :: _ => digits_value text 0
  end.


(** The rational number a float denotes (infinities and NaN denote none and
    are mapped to 0). *)
Definition float_value (f : spec_float) : Q :=
  match f with
  | S754_finite sign m e =>
      let n := if sign then Zneg m else Zpos m in
      if (0 <=? e)%Z then inject_Z (n * 2 ^ e)
      else Qmake n (Z.to_pos (2 ^ (- e)))
  | _ => 0%Q
  end.

Definition is_finite_float (f : spec_float) : bool :=
  match f with
  | S754_zero _ | S754_finite _ _ _ => true
  | S754_infinity _ | S754_nan => false
  end.

(** Rounding toward zero on the rationals. *)
Definition truncate_toward_zero (q : Q) : Z :=
  if Qle_bool 0 q then Qfloor q else Qceiling q.

(** ** SigmaRegularExpression *)

Record SigmaRegularExpression : Set := mkSigmaRegularExpression { regexp : str }.

(** *** The part of the [re] library that [escape] uses

    [escape] searches with the pattern ["|".join(re.escape(e) ...)]: an
    alternation of literal strings.  At a position the alternatives are tried
    in order and the first that matches there wins; matches do not overlap;
    after an empty match the next one must either be non-empty or start
    further right. *)

(** The first alternative that is a prefix of [text]; with [must_advance]
    an empty alternative does not count. *)
Fixpoint first_alt (must_advance : bool) (alts : list str) (text : str)
    : option str :=
  match alts with
  | [] => None
  | a :: alts' =>
      if str_startswith text a
         && negb (must_advance && (length a =? 0))
      then Some a
      else first_alt must_advance alts' text
  end.

(** [[m.start() for m in re.finditer(r, text)]] from offset [i], where
    [text] is what remains of the subject and [skip] counts the characters
    of it still covered by the previous match. *)
Fixpoint finditer_starts (alts : list str) (skip i : nat) (text : str)
    : list nat :=
  match text with
  | [] =>
      match skip, first_alt false alts [] with
      | 0, Some _ => [i]
      | _, _ => []
      end
  | _ :: text' =>
      match skip with
      | S skip' => finditer_starts alts skip' (S i) text'
      | 0 =>
          match first_alt false alts text with
          | None => finditer_starts alts 0 (S i) text'
          | Some [] =>
              i :: match first_alt true alts text with
                   | Some a => i :: finditer_starts alts (length a - 1) (S i) text'
                   | None => finditer_starts alts 0 (S i) text'
                   end
          | Some a => i :: finditer_starts alts (length a - 1) (S i) text'
          end
      end
  end.

(** The slice [text[i:j]] for bounds that are [None] or non-negative. *)
Definition slice (text : str) (i j : option nat) : str :=
  let lo := match i with Some n => n | None => 0 end in
  let hi := match j with Some n => n | None => length text end in
  skipn lo (firstn hi text).

(** [sep.join(chunks)]. *)
Fixpoint join (sep : str) (chunks : list str) : str :=
  match chunks with
  | [] => []
  | [x] => x
  | x :: chunks' => x ++ sep ++ join sep chunks'
  end.

Module SigmaRegularExpression.

Definition escape (self : SigmaRegularExpression) (escaped : list str)
    (escape_char : str) : str :=
  let pos := finditer_starts (escaped ++ [escape_char]) 0 0 (regexp self) in
  let ranges := combine (None :: map Some pos) (map Some pos ++ [None]) in
  join escape_char (map (fun ij => slice (regexp self) (fst ij) (snd ij)) ranges).

End SigmaRegularExpression.

(** ** The specification's reading of the operations

    The definitions of this part follow the wording of the specification,
    not the code; the theorems below compare them with the code. *)

(** *** Tokenizer (specification 4.2): a scan with an accumulation buffer
    and two states. *)

Inductive scan_mode : Set :=
| normal
| escaped_mode.

Definition is_designator (c : ascii) : bool :=
  match char_mapping c with
  | Some _ => true
  | None => false
  end.

(** Flushing a buffer: a literal run if it is not empty. *)
Definition flush (buffer : str) : list item :=
  match buffer with
  | [] => []
  | _ :: _ => [Str buffer]
  end.

Fixpoint spec_scan (mode : scan_mode) (buffer : str) (raw : str) : list item :=
  match raw with
  | [] =>
      match mode with
      | escaped_mode => flush (buffer ++ [escape_char])
      | normal => flush buffer
      end
  | c :: raw' =>
      match mode with
      | escaped_mode =>
          if is_designator c || Ascii.eqb c escape_char
          then spec_scan normal (buffer ++ [c]) raw'
          else spec_scan normal (buffer ++ [escape_char; c]) raw'
      | normal =>
          if Ascii.eqb c escape_char then spec_scan escaped_mode buffer raw'
          else
            match char_mapping c with
            | Some k => flush buffer ++ Special k :: spec_scan normal [] raw'
            | None => spec_scan normal (buffer ++ [c]) raw'
            end
      end
  end.

Definition spec_tokenize (raw : str) : list item := spec_scan normal [] raw.

(** *** Token sequences *)

(** No literal run of the sequence is empty. *)
Definition no_empty_run (t : list item) : bool :=
  forallb (fun it => match it with
                     | Str [] => false
                     | _ => true
                     end) t.

Definition starts_with_run (t : list item) : bool :=
  match t with
  | Str _ :: _ => true
  | _ => false
  end.

(** The shape of a tokenizer result: no empty literal run and no two
    literal runs side by side. *)
Fixpoint canonical (t : list item) : bool :=
  match t with
  | [] => true
  | Str text :: t' =>
      negb (length text =? 0) && negb (starts_with_run t') && canonical t'
  | Special _ :: t' => canonical t'
  end.

(** The literal characters of a sequence, in order. *)
Definition literal_chars (t : list item) : str :=
  flat_map (fun it => match it with
                      | Str text => text
                      | Special _ => []
                      end) t.

Definition contains_wildcard (k : SpecialChars) (t : list item) : bool :=
  existsb (fun it => match it with
                     | Special k' => SpecialChars_eqb k k'
                     | Str _ => false
                     end) t.

(** *** Serializer: what one atomic unit emits, in the form the proofs
    work with; the wording of specification 4.4 is [spec_literal] and
    [spec_wildcard] below. *)

Definition spec_emit (escapeChar : str) (wildcardMultiRepr wildcardSingleRepr : option str)
    (additionalEscaped filteredChars : str) (u : unit_item) : result str :=
  match u with
  | Char c =>
      if char_in c filteredChars then Ok []
      else if char_in c (SigmaString.or_empty wildcardMultiRepr
                         ++ SigmaString.or_empty wildcardSingleRepr
                         ++ additionalEscaped)
           then Ok (escapeChar ++ [c])
           else Ok [c]
  | Wild WILDCARD_MULTI =>
      match wildcardMultiRepr with
      | Some text => Ok text
      | None => Raise SigmaValueError
      end
  | Wild WILDCARD_SINGLE =>
      match wildcardSingleRepr with
      | Some text => Ok text
      | None => Raise SigmaValueError
      end
  end.

Fixpoint spec_convert (emit : unit_item -> result str) (units : list unit_item)
    : result str :=
  match units with
  | [] => Ok []
  | u :: units' =>
      out <- emit u ;;
      rest <- spec_convert emit units' ;;
      Ok (out ++ rest)
  end.

(** A literal character that [convert] would prefix with the escape
    character. *)
Definition needs_escape (wildcard_multi wildcard_single : option str)
    (add_escaped filter_chars : str) (c : ascii) : bool :=
  negb (char_in c filter_chars)
  && char_in c (SigmaString.or_empty wildcard_multi
                ++ SigmaString.or_empty wildcard_single ++ add_escaped).

(** *** Regular-expression escaping (specification 4.5) *)

(** One escape character before every match of the left-to-right scan:
    [skip] counts the characters still covered by the last match. *)
Fixpoint insert_escapes (alts : list str) (escapeChar : str) (skip : nat)
    (text : str) : str :=
  match text with
  | [] => []
  | c :: text' =>
      match skip with
      | S skip' => c :: insert_escapes alts escapeChar skip' text'
      | 0 =>
          match first_alt false alts text with
          | Some a => escapeChar ++ c :: insert_escapes alts escapeChar (length a - 1) text'
          | None => c :: insert_escapes alts escapeChar 0 text'
          end
      end
  end.

(** One escape character before every occurrence of a character of
    [special]. *)
Definition escape_each (special : str) (escapeChar : ascii) (text : str) : str :=
  flat_map (fun c => if char_in c special then [escapeChar; c] else [c]) text.

Definition nonempty (text : str) : bool := negb (length text =? 0).

(** The net effect as the specification words it: an escape character
    before every position at which some delimiter occurs. *)
Fixpoint escape_every_occurrence (alts : list str) (escapeChar : str) (text : str)
    : str :=
  match text with
  | [] => []
  | c :: text' =>
      (if existsb (str_startswith text) alts then escapeChar else [])
      ++ c :: escape_every_occurrence alts escapeChar text'
  end.

(** ** Auxiliary notions used in the statements *)

Definition mode_of (st : init_state) : scan_mode :=
  if escaped st then escaped_mode else normal.

(** The state of the loop of [__init__] after reading [raw]. *)
Definition scan_state (raw : str) : init_state := SigmaString.init_loop raw.

(** A character that the tokenizer accumulates as it is. *)
Definition plain_char (c : ascii) : bool :=
  negb (is_designator c) && negb (Ascii.eqb c escape_char).

(** The value contains a wildcard whose representation is unset. *)
Definition unsupported_wildcard (wildcard_multi wildcard_single : option str)
    (t : list item) : bool :=
  (contains_wildcard WILDCARD_MULTI t
   && match wildcard_multi with None => true | Some _ => false end)
  || (contains_wildcard WILDCARD_SINGLE t
      && match wildcard_single with None => true | Some _ => false end).

(** The query and the token are of the same kind: both text or both
    special characters. *)
Definition same_kind (c : item) (val : py_value) : bool :=
  match c, val with
  | Str _, PyStr _ => true
  | Special _, PySpecialChars _ => true
  | _, _ => false
  end.

(** The operator returned a [SigmaString] without empty literal run. *)
Definition returns_without_empty_run (res : binop_result) : bool :=
  match res with
  | Returned w => no_empty_run (s w)
  | NotImplemented => false
  end.

(** The chunks [[self.regexp[i:j] for i, j in ranges]] when the first range
    starts at [start]. *)
Definition chunks (text : str) (start : option nat) (pos : list nat) : list str :=
  map (fun ij => slice text (fst ij) (snd ij))
      (combine (start :: map Some pos) (map Some pos ++ [None])).

(** ** The rest of the module *)

(** [SigmaNull] has no fields. *)
Inductive SigmaNull : Set := mkSigmaNull.

(** An instance of one of the classes derived from [SigmaType]. *)
Inductive SigmaType : Set :=
| OfSigmaNumber (n : SigmaNumber)
| OfSigmaString (w : SigmaString)
| OfSigmaNull (n : SigmaNull).

(** The keys and the values of [type_map]. *)
Inductive py_type : Set :=
| type_int
| type_float
| type_str
| type_NoneType.

Inductive sigma_class : Set :=
| class_SigmaNumber
| class_SigmaString
| class_SigmaNull.

Definition type_map : list (py_type * sigma_class) :=
  [ (type_int, class_SigmaNumber);
    (type_float, class_SigmaNumber);
    (type_str, class_SigmaString);
    (type_NoneType, class_SigmaNull) ].

Definition isinstance (v : py_value) (t : py_type) : bool :=
  match v, t with
  | PyInt _, type_int => true
  | PyFloat _, type_float => true
  | PyStr _, type_str => true
  | PyNone, type_NoneType => true
  | _, _ => false
  end.

(** The call [SigmaString(v)] for an argument of any type: [None] stands
    for the empty string, a number or a special character cannot be
    iterated, and iterating a [SigmaString] fails at its first special
    character, which cannot be added to [acc]. *)
Definition call_SigmaString (v : py_value) : result SigmaString :=
  match v with
  | PyStr text => Ok (SigmaString.__init__ (Some text))
  | PyNone => Ok (SigmaString.__init__ None)
  | PySigmaString w =>
      if SigmaString.contains_special w then Raise TypeError
      else Ok (SigmaString.__init__ (Some (SigmaString.__str__ w)))
  | PyInt _ | PyFloat _ | PySpecialChars _ => Raise TypeError
  end.

(** The call [st(v)] for a class [st] of [type_map]. *)
Definition call_class (int_of_str : str -> option Z) (st : sigma_class)
    (v : py_value) : result SigmaType :=
  match st with
  | class_SigmaNumber =>
      n <- SigmaNumber.__post_init__ int_of_str v ;; Ok (OfSigmaNumber n)
  | class_SigmaString => w <- call_SigmaString v ;; Ok (OfSigmaString w)
  | class_SigmaNull => Ok (OfSigmaNull mkSigmaNull)
  end.

(** The loop of [sigma_type]; falling off its end returns [None]. *)
Fixpoint sigma_type_loop (int_of_str : str -> option Z)
    (items : list (py_type * sigma_class)) (v : py_value)
    : result (option SigmaType) :=
  match items with
  | [] => Ok None
  | (t, st) :: items' =>
      if isinstance v t
      then x <- call_class int_of_str st v ;; Ok (Some x)
      else sigma_type_loop int_of_str items' v
  end.

Definition sigma_type (int_of_str : str -> option Z) (v : py_value)
    : result (option SigmaType) :=
  sigma_type_loop int_of_str type_map v.

(** ** Further notions used in the statements *)

(** The character a unit stands for in [__str__]. *)
Definition unit_char (u : unit_item) : ascii :=
  match u with
  | Char c => c
  | Wild k => special_char_mapping k
  end.

(** A literal character written so that the tokenizer reads it back as
    itself: designators and the escape character get an escape character in
    front. *)
Definition escape_literal (c : ascii) : str :=
  if plain_char c then [c] else [escape_char; c].

(** A token sequence written with every literal character escaped where
    needed and every wildcard as its designator. *)
Definition rendered (t : list item) : str :=
  flat_map (fun it => match it with
                      | Str text => flat_map escape_literal text
                      | Special k => [special_char_mapping k]
                      end) t.

(** Reading an escaped pattern back: an escape character is dropped and
    the character after it is kept. *)
Fixpoint drop_escapes (escapeChar : ascii) (text : str) : str :=
  match text with
  | [] => []
  | c :: text' =>
      if Ascii.eqb c escapeChar
      then match text' with
           | [] => []
           | c' :: text'' => c' :: drop_escapes escapeChar text''
           end
      else c :: drop_escapes escapeChar text'
  end.

(** The number of characters of [text] that lie in [special]. *)
Definition count_in (special : str) (text : str) : nat :=
  length (filter (fun c => char_in c special) text).

(** The text an operand of [+] contributes, for the operands [__add__]
    accepts. *)
Definition operand_str (other : py_value) : option str :=
  match other with
  | PySigmaString o => Some (SigmaString.__str__ o)
  | PyStr text => Some text
  | PySpecialChars k => Some [special_char_mapping k]
  | _ => None
  end.

(** Whether an operand of [+] brings a special character with it: bare text
    never does. *)
Definition operand_special (other : py_value) : bool :=
  match other with
  | PySigmaString o => SigmaString.contains_special o
  | PySpecialChars _ => true
  | _ => false
  end.

(** ** Notions for the round trip and for the serializer's specification *)

(** A character with a meaning for the tokenizer: a designator or the
    escape character. *)
Definition is_special_char (c : ascii) : bool :=
  is_designator c || Ascii.eqb c escape_char.

(** No escape character of [text] is immediately followed by a character
    with a meaning for the tokenizer. *)
Fixpoint no_escape_pair (text : str) : bool :=
  match text with
  | [] => true
  | c :: text' =>
      negb (Ascii.eqb c escape_char
            && match text' with
               | d :: _ => is_special_char d
               | [] => false
               end)
      && no_escape_pair text'
  end.

(** The literal text a scan holds back: its buffer, and the escape
    character read last when it is in the escaped state. *)
Definition pending (mode : scan_mode) (buffer : str) : str :=
  match mode with
  | escaped_mode => buffer ++ [escape_char]
  | normal => buffer
  end.

(** In the escaped state the next character has no meaning for the
    tokenizer. *)
Definition may_follow (mode : scan_mode) (text : str) : bool :=
  match mode, text with
  | escaped_mode, c :: _ => negb (is_special_char c)
  | _, _ => true
  end.

(** Membership of a character in a string, by the library's [In]. *)
Definition occurs_in (c : ascii) (chars : str) : bool :=
  if in_dec ascii_dec c chars then true else false.

(** The characters of a wildcard representation; none when it is unset. *)
Definition repr_chars (repr : option str) : str :=
  match repr with
  | Some text => text
  | None => []
  end.

(** Specification 4.4, the literal character: skipped if filtered, prefixed
    with the escape character if it is in the set formed by the two
    wildcard representations and the additional escaped characters, and
    unchanged otherwise. *)
Definition spec_literal (escapeChar : str)
    (wildcardMultiRepr wildcardSingleRepr : option str)
    (additionalEscaped filteredChars : str) (c : ascii) : str :=
  if occurs_in c filteredChars then []
  else if occurs_in c (repr_chars wildcardMultiRepr)
          || occurs_in c (repr_chars wildcardSingleRepr)
          || occurs_in c additionalEscaped
       then escapeChar ++ [c]
       else [c].

(** Specification 4.4, the wildcard: its configured representation, or a
    failure of the ValueError kind. *)
Definition spec_wildcard (wildcardMultiRepr wildcardSingleRepr : option str)
    (k : SpecialChars) : result str :=
  match k, wildcardMultiRepr, wildcardSingleRepr with
  | WILDCARD_MULTI, Some text, _ => Ok text
  | WILDCARD_SINGLE, _, Some text => Ok text
  | _, _, _ => Raise SigmaValueError
  end.

(** The serialization of a token sequence, token by token and, within a
    literal run, character by character. *)
Fixpoint spec_serialize (literal : ascii -> str) (wildcard : SpecialChars -> result str)
    (t : list item) : result str :=
  match t with
  | [] => Ok []
  | Str text :: t' =>
      match spec_serialize literal wildcard t' with
      | Ok rest => Ok (flat_map literal text ++ rest)
      | Raise e => Raise e
      end
  | Special k :: t' =>
      match wildcard k with
      | Ok out =>
          match spec_serialize literal wildcard t' with
          | Ok rest => Ok (out ++ rest)
          | Raise e => Raise e
          end
      | Raise e => Raise e
      end
  end.

(** * Properties *)

(** ** Strings *)

Lemma str_eqb_refl (a : str) : str_eqb a a = true.
Proof.
  induction a as [|x a IH]; simpl; [reflexivity|].
  now rewrite Ascii.eqb_refl, IH.
Qed.

Lemma str_eqb_eq (a b : str) : str_eqb a b = true <-> a = b.
Proof.
  split.
  - revert b; induction a as [|x a IH]; intros [|y b]; simpl; try discriminate; auto.
    intros H; apply andb_true_iff in H as [Hx Hab].
    apply Ascii.eqb_eq in Hx; subst; f_equal; auto.
  - intros ->; apply str_eqb_refl.
Qed.

Lemma str_startswith_prefix (a b : str) :
  str_startswith a b = true <-> exists rest, a = b ++ rest.
Proof.
  revert a; induction b as [|y b IH]; intros a; simpl.
  - split; [exists a; reflexivity | reflexivity].
  - destruct a as [|x a].
    + split; [discriminate | intros [rest H]; discriminate].
    + rewrite andb_true_iff, Ascii.eqb_eq, IH; split.
      * intros [-> [rest ->]]; exists rest; reflexivity.
      * intros [rest H]; injection H as -> ->; split; [reflexivity | exists rest; reflexivity].
Qed.

Lemma str_endswith_suffix (a b : str) :
  str_endswith a b = true <-> exists front, a = front ++ b.
Proof.
  unfold str_endswith; rewrite andb_true_iff, Nat.leb_le, str_eqb_eq; split.
  - intros [_ H]; exists (firstn (length a - length b) a).
    rewrite <- H at 2; symmetry; apply firstn_skipn.
  - intros [front ->]; rewrite length_app; split; [lia|].
    replace (length front + length b - length b) with (length front + 0) by lia.
    now rewrite skipn_app, Nat.add_0_r, skipn_all, Nat.sub_diag.
Qed.

Lemma SpecialChars_eqb_eq (a b : SpecialChars) :
  SpecialChars_eqb a b = true <-> a = b.
Proof. destruct a, b; simpl; split; congruence. Qed.

(** ** The tokenizer *)

Lemma append_flush (items : list item) (buffer : str) :
  (if str_eqb buffer [] then items else items ++ [Str buffer])
  = items ++ flush buffer.
Proof. destruct buffer; simpl; [now rewrite app_nil_r | reflexivity]. Qed.

Lemma init_finish_scan (raw : str) :
  forall st : init_state,
    s (SigmaString.init_finish (fold_left SigmaString.init_step raw st))
    = r st ++ spec_scan (mode_of st) (acc st) raw.
Proof.
  induction raw as [|c raw IH]; intros [items buffer flag].
  - unfold SigmaString.init_finish, mode_of; simpl.
    destruct flag; apply append_flush.
  - simpl fold_left; rewrite IH; clear IH.
    unfold SigmaString.init_step, mode_of; simpl.
    destruct flag; simpl; unfold is_designator.
    + destruct (char_mapping c); simpl; [reflexivity|].
      destruct (Ascii.eqb c escape_char); reflexivity.
    + destruct (Ascii.eqb c escape_char); simpl; [reflexivity|].
      destruct (char_mapping c); simpl; [|reflexivity].
      now rewrite append_flush, <- !app_assoc.
Qed.

Lemma tokenize_spec_scan (raw : str) : s (tokenize raw) = spec_tokenize raw.
Proof.
  unfold tokenize, SigmaString.__init__, SigmaString.init_loop.
  now rewrite init_finish_scan.
Qed.

Lemma canonical_flush_special (buffer : str) (k : SpecialChars) (t : list item) :
  canonical t = true -> canonical (flush buffer ++ Special k :: t) = true.
Proof. destruct buffer; simpl; auto. Qed.

Lemma canonical_flush (buffer : str) : canonical (flush buffer) = true.
Proof. destruct buffer; reflexivity. Qed.

Lemma spec_scan_canonical (raw : str) :
  forall mode buffer, canonical (spec_scan mode buffer raw) = true.
Proof.
  induction raw as [|c raw IH]; intros mode buffer; simpl.
  - destruct mode; apply canonical_flush.
  - destruct mode.
    + destruct (Ascii.eqb c escape_char); [apply IH|].
      destruct (char_mapping c); [|apply IH].
      apply canonical_flush_special, IH.
    + destruct (is_designator c || Ascii.eqb c escape_char); apply IH.
Qed.

Lemma tokenize_canonical (raw : str) : canonical (s (tokenize raw)) = true.
Proof. rewrite tokenize_spec_scan; apply spec_scan_canonical. Qed.

Lemma canonical_no_empty_run (t : list item) :
  canonical t = true -> no_empty_run t = true.
Proof.
  induction t as [|[text|k] t IH]; simpl; auto.
  intros H; apply andb_true_iff in H as [H Ht].
  apply andb_true_iff in H as [Hne _].
  rewrite (IH Ht), andb_true_r.
  destruct text; [discriminate | reflexivity].
Qed.

(** C1.  For every raw string the constructor computes the two-state scan
    of the specification: in the escaped state a designator or the escape
    character is appended alone and any other character is appended after
    the escape character, an unescaped designator flushes the non-empty
    buffer and appends its wildcard, and at the end of the input a pending
    escape character is appended to the last literal run.  The raw string
    a, backslash, star, b gives the single literal run a, star, b; and an
    input that ends with an escape character that escapes nothing has that
    character appended to the buffer before the final flush. *)
Theorem tokenize_follows_scan :
  (forall raw : str, s (tokenize raw) = spec_scan normal [] raw)
  /\ s (tokenize (py "a\*b")) = [Str (py "a*b")]
  /\ (forall raw : str,
        escaped (scan_state raw) = false ->
        s (tokenize (raw ++ [escape_char]))
        = r (scan_state raw) ++ [Str (acc (scan_state raw) ++ [escape_char])]).
Proof.
  split; [exact tokenize_spec_scan|].
  split; [reflexivity|].
  intros raw Hflag.
  assert (E : SigmaString.init_loop (raw ++ [escape_char])
              = SigmaString.init_step (scan_state raw) escape_char)
    by (unfold scan_state, SigmaString.init_loop; now rewrite fold_left_app).
  unfold tokenize, SigmaString.__init__; rewrite E.
  unfold SigmaString.init_step, SigmaString.init_finish.
  rewrite Hflag; simpl.
  destruct (acc (scan_state raw)); reflexivity.
Qed.

Lemma tokenize_follows_scan_witness :
  s (tokenize (py "ab\")) = [Str (py "ab\")].
Proof.
  destruct tokenize_follows_scan as (_ & _ & Htrail).
  apply (Htrail (py "ab")).
  reflexivity.
Defined.

Lemma str_flush_app (buffer : str) (t : list item) (p : bool) :
  SigmaString.__str__ (mkSigmaString (flush buffer ++ t) p)
  = buffer ++ SigmaString.__str__ (mkSigmaString t p).
Proof.
  destruct buffer; [reflexivity|].
  unfold SigmaString.__str__; cbn [s flush app flat_map]; reflexivity.
Qed.

Lemma spec_scan_length (raw : str) :
  forall (mode : scan_mode) (buffer : str),
    length (SigmaString.__str__ (mkSigmaString (spec_scan mode buffer raw) true))
    <= length buffer + match mode with escaped_mode => 1 | normal => 0 end
       + length raw.
Proof.
  induction raw as [|c raw IH]; intros mode buffer; cbn [spec_scan length].
  - destruct mode.
    + rewrite <- (app_nil_r (flush buffer)), str_flush_app.
      change (SigmaString.__str__ (mkSigmaString [] true)) with (@nil ascii).
      rewrite app_nil_r; lia.
    + rewrite <- (app_nil_r (flush _)), str_flush_app.
      change (SigmaString.__str__ (mkSigmaString [] true)) with (@nil ascii).
      rewrite app_nil_r, length_app.
      cbn [length].
      lia.
  - destruct mode.
    + destruct (Ascii.eqb c escape_char).
      * specialize (IH escaped_mode buffer); cbn beta iota in IH; lia.
      * destruct (char_mapping c) as [k|].
        -- change (Special k :: spec_scan normal [] raw)
             with ([Special k] ++ spec_scan normal [] raw).
           rewrite str_flush_app, length_app.
           specialize (IH normal []); cbn beta iota in IH.
           unfold SigmaString.__str__ in *; cbn [s app flat_map length] in *.
           lia.
        -- specialize (IH normal (buffer ++ [c])).
           rewrite length_app in IH; cbn beta iota in IH; cbn [length] in IH; lia.
    + destruct (is_designator c || Ascii.eqb c escape_char).
      * specialize (IH normal (buffer ++ [c])).
        rewrite length_app in IH; cbn beta iota in IH; cbn [length] in IH; lia.
      * specialize (IH normal (buffer ++ [escape_char; c])).
        rewrite length_app in IH; cbn beta iota in IH; cbn [length] in IH; lia.
Qed.

(** ** The serializer *)

Lemma for_loop_app {A S : Type} (body : S -> A -> result S) (xs ys : list A) :
  forall st : S,
    SigmaString.for_loop body (xs ++ ys) st
    = (st1 <- SigmaString.for_loop body xs st ;; SigmaString.for_loop body ys st1).
Proof.
  induction xs as [|x xs IH]; intros st; simpl; [reflexivity|].
  destruct (body st x); simpl; [apply IH | reflexivity].
Qed.

Lemma iter_cons (it : item) (t : list item) (p q : bool) :
  SigmaString.__iter__ (mkSigmaString (it :: t) p)
  = match it with
    | Str text => map Char text
    | Special k => [Wild k]
    end ++ SigmaString.__iter__ (mkSigmaString t q).
Proof. reflexivity. Qed.

Lemma spec_scan_plain (text : str) :
  forall buffer rest,
    forallb plain_char text = true ->
    spec_scan normal buffer (text ++ rest) = spec_scan normal (buffer ++ text) rest.
Proof.
  induction text as [|c text IH]; intros buffer rest H; simpl.
  - now rewrite app_nil_r.
  - simpl in H; apply andb_true_iff in H as [Hc Htext].
    unfold plain_char, is_designator in Hc.
    apply andb_true_iff in Hc as [Hd He].
    destruct (Ascii.eqb c escape_char); [discriminate|].
    destruct (char_mapping c); [discriminate|].
    rewrite IH by assumption.
    now rewrite <- app_assoc.
Qed.

Lemma spec_scan_special (k : SpecialChars) (buffer rest : str) :
  spec_scan normal buffer (special_char_mapping k :: rest)
  = flush buffer ++ Special k :: spec_scan normal [] rest.
Proof. destruct k; reflexivity. Qed.

Section ConvertBody.

Variables (escape_char wildcard_multi wildcard_single : option str).
Variables (filter_chars escaped_chars : str).

(** Literal characters that are neither filtered nor escaped are copied. *)
Lemma loop_copies_chars (text : str) :
  forall out : str,
    forallb (fun c => negb (char_in c filter_chars)) text = true ->
    forallb (fun c => negb (char_in c escaped_chars)) text = true ->
    SigmaString.for_loop
      (SigmaString.convert_body escape_char wildcard_multi wildcard_single
                                filter_chars escaped_chars)
      (map Char text) out
    = Ok (out ++ text).
Proof.
  induction text as [|c text IH]; intros out Hf He; cbn [map SigmaString.for_loop].
  - now rewrite app_nil_r.
  - cbn [forallb] in Hf, He.
    apply andb_true_iff in Hf as [Hfc Hf]; apply andb_true_iff in He as [Hec He].
    apply negb_true_iff in Hfc, Hec.
    unfold SigmaString.convert_body at 1; rewrite Hfc, Hec; cbn [bind].
    rewrite IH by assumption.
    now rewrite <- app_assoc.
Qed.

End ConvertBody.

Lemma convert_copies (t : list item) (escape_char : option str)
    (filter_chars escaped_chars : str) :
  forall (out : str) (p : bool),
    forallb (fun c => negb (char_in c filter_chars)) (literal_chars t) = true ->
    forallb (fun c => negb (char_in c escaped_chars)) (literal_chars t) = true ->
    SigmaString.for_loop
      (SigmaString.convert_body escape_char (Some (py "*")) (Some (py "?"))
         filter_chars escaped_chars)
      (SigmaString.__iter__ (mkSigmaString t p)) out
    = Ok (out ++ SigmaString.__str__ (mkSigmaString t p)).
Proof.
  induction t as [|[text|k] t IH]; intros out p Hf He.
  - simpl; now rewrite app_nil_r.
  - rewrite (iter_cons (Str text) t p p), for_loop_app.
    simpl in Hf, He; rewrite forallb_app in Hf, He.
    apply andb_true_iff in Hf as [Hf1 Hf2]; apply andb_true_iff in He as [He1 He2].
    rewrite (loop_copies_chars escape_char (Some (py "*")) (Some (py "?"))
               filter_chars escaped_chars text out Hf1 He1).
    simpl bind; rewrite (IH _ p Hf2 He2).
    unfold SigmaString.__str__; simpl; now rewrite app_assoc.
  - rewrite (iter_cons (Special k) t p p).
    cbn [app SigmaString.for_loop].
    assert (Hk : SigmaString.convert_body escape_char (Some (py "*")) (Some (py "?"))
                   filter_chars escaped_chars out (Wild k)
                 = Ok (out ++ [special_char_mapping k])) by (destruct k; reflexivity).
    rewrite Hk; simpl bind; rewrite (IH _ p Hf He).
    unfold SigmaString.__str__; simpl; now rewrite <- app_assoc.
Qed.

Lemma no_escape_pair_app_r (a b : str) :
  no_escape_pair (a ++ b) = true -> no_escape_pair b = true.
Proof.
  induction a as [|c a IH]; [trivial|].
  cbn [app no_escape_pair]; intros H; apply andb_true_iff in H as [_ H]; auto.
Qed.

Lemma escape_may_follow (c : ascii) (text : str) :
  Ascii.eqb c escape_char = true ->
  negb (Ascii.eqb c escape_char
        && match text with
           | d :: _ => is_special_char d
           | [] => false
           end) = true ->
  may_follow escaped_mode text = true.
Proof.
  intros ->; destruct text as [|d text]; [reflexivity|].
  cbn [andb may_follow]; trivial.
Qed.

(** Reading a literal run that contains no designator and in which no
    escape character meets a special character keeps every character. *)
Lemma scan_literal_text (text : str) :
  forall (mode : scan_mode) (buffer rest : str),
    forallb (fun c => negb (is_designator c)) text = true ->
    may_follow mode (text ++ rest) = true ->
    no_escape_pair (text ++ rest) = true ->
    exists (mode' : scan_mode) (buffer' : str),
      spec_scan mode buffer (text ++ rest) = spec_scan mode' buffer' rest
      /\ pending mode' buffer' = pending mode buffer ++ text
      /\ may_follow mode' rest = true.
Proof.
  induction text as [|c text IH]; intros mode buffer rest Hfree Hfollow Hpair.
  - exists mode, buffer; cbn [app]; rewrite app_nil_r; auto.
  - cbn [forallb] in Hfree; apply andb_true_iff in Hfree as [Hc Hfree].
    apply negb_true_iff in Hc.
    cbn [app no_escape_pair] in Hpair; apply andb_true_iff in Hpair as [Hhead Hpair].
    cbn [app spec_scan].
    destruct mode.
    + destruct (Ascii.eqb c escape_char) eqn:Hesc.
      * pose proof (escape_may_follow c (text ++ rest) Hesc) as Hnext.
        rewrite Hesc in Hnext; specialize (Hnext Hhead).
        destruct (IH escaped_mode buffer rest Hfree Hnext Hpair)
          as (mode' & buffer' & Heq & Hpend & Hf).
        exists mode', buffer'; split; [exact Heq|]; split; [|exact Hf].
        apply Ascii.eqb_eq in Hesc; subst c.
        rewrite Hpend; cbn [pending]; now rewrite <- app_assoc.
      * unfold is_designator in Hc.
        destruct (char_mapping c); [discriminate|].
        destruct (IH normal (buffer ++ [c]) rest Hfree eq_refl Hpair)
          as (mode' & buffer' & Heq & Hpend & Hf).
        exists mode', buffer'; split; [exact Heq|]; split; [|exact Hf].
        rewrite Hpend; cbn [pending]; now rewrite <- app_assoc.
    + cbn [app may_follow] in Hfollow; apply negb_true_iff in Hfollow.
      unfold is_special_char in Hfollow; rewrite Hfollow.
      destruct (IH normal (buffer ++ [escape_char; c]) rest Hfree eq_refl Hpair)
        as (mode' & buffer' & Heq & Hpend & Hf).
      exists mode', buffer'; split; [exact Heq|]; split; [|exact Hf].
      rewrite Hpend; cbn [pending]; now rewrite <- !app_assoc.
Qed.

Lemma scan_rendered_tokens (t : list item) :
  forall (mode : scan_mode) (buffer : str),
    canonical t = true ->
    forallb (fun c => negb (is_designator c)) (literal_chars t) = true ->
    pending mode buffer = [] \/ starts_with_run t = false ->
    may_follow mode (SigmaString.__str__ (mkSigmaString t true)) = true ->
    no_escape_pair (SigmaString.__str__ (mkSigmaString t true)) = true ->
    spec_scan mode buffer (SigmaString.__str__ (mkSigmaString t true))
    = flush (pending mode buffer) ++ t.
Proof.
  induction t as [|[text|k] t IH]; intros mode buffer Hcan Hfree Hbuf Hfollow Hpair.
  - change (SigmaString.__str__ (mkSigmaString [] true)) with (@nil ascii).
    destruct mode; cbn [spec_scan pending]; now rewrite app_nil_r.
  - change (SigmaString.__str__ (mkSigmaString (Str text :: t) true))
      with (text ++ SigmaString.__str__ (mkSigmaString t true)) in *.
    destruct Hbuf as [Hbuf | Hbuf]; [|discriminate].
    destruct mode; cbn [pending] in Hbuf;
      [subst buffer | now apply app_eq_nil in Hbuf as [_ Hbuf]].
    cbn [canonical] in Hcan.
    apply andb_true_iff in Hcan as [Hcan Ht].
    apply andb_true_iff in Hcan as [Hne Hrun].
    cbn [literal_chars flat_map] in Hfree; fold (literal_chars t) in Hfree.
    rewrite forallb_app in Hfree; apply andb_true_iff in Hfree as [Htext Hrest].
    destruct (scan_literal_text text normal [] _ Htext eq_refl Hpair)
      as (mode' & buffer' & Heq & Hpend & Hf).
    rewrite Heq, (IH mode' buffer' Ht Hrest).
    + rewrite Hpend; cbn [pending app].
      destruct text; [discriminate | reflexivity].
    + right; now apply negb_true_iff.
    + exact Hf.
    + exact (no_escape_pair_app_r _ _ Hpair).
  - change (SigmaString.__str__ (mkSigmaString (Special k :: t) true))
      with (special_char_mapping k :: SigmaString.__str__ (mkSigmaString t true)) in *.
    destruct mode; [|destruct k; discriminate].
    rewrite spec_scan_special; cbn [pending].
    cbn [no_escape_pair] in Hpair; apply andb_true_iff in Hpair as [_ Hpair].
    now rewrite (IH normal [] Hcan Hfree (or_introl eq_refl) eq_refl Hpair).
Qed.

(** An escape character that meets a special character is dropped by the
    scan: what is read is shorter than what was written. *)
Lemma scan_drops_escape (raw : str) :
  forall (mode : scan_mode) (buffer : str),
    no_escape_pair raw = false ->
    length (SigmaString.__str__ (mkSigmaString (spec_scan mode buffer raw) true))
    < length buffer + match mode with escaped_mode => 1 | normal => 0 end
      + length raw.
Proof.
  induction raw as [|c raw IH]; intros mode buffer Hpair; [discriminate|].
  cbn [no_escape_pair] in Hpair.
  cbn [spec_scan length]; destruct mode.
  - destruct (Ascii.eqb c escape_char) eqn:Hesc.
    + cbn [andb] in Hpair.
      destruct raw as [|d raw'].
      * discriminate.
      * destruct (is_special_char d) eqn:Hd.
        -- cbn [spec_scan]; unfold is_special_char in Hd; rewrite Hd.
           pose proof (spec_scan_length raw' normal (buffer ++ [d])) as Hlen.
           rewrite length_app in Hlen; cbn beta iota in Hlen; cbn [length] in *.
           lia.
        -- cbn [negb andb] in Hpair.
           specialize (IH escaped_mode buffer Hpair); cbn beta iota in IH.
           cbn [length] in *; lia.
    + cbn [andb negb] in Hpair.
      destruct (char_mapping c) as [k|].
      * change (Special k :: spec_scan normal [] raw)
          with ([Special k] ++ spec_scan normal [] raw).
        rewrite str_flush_app, length_app.
        specialize (IH normal [] Hpair); cbn beta iota in IH.
        unfold SigmaString.__str__ in *; cbn [s app flat_map length] in *.
        lia.
      * specialize (IH normal (buffer ++ [c]) Hpair).
        rewrite length_app in IH; cbn beta iota in IH; cbn [length] in IH; lia.
  - destruct (is_designator c || Ascii.eqb c escape_char) eqn:Hsp.
    + pose proof (spec_scan_length raw normal (buffer ++ [c])) as Hlen.
      rewrite length_app in Hlen; cbn beta iota in Hlen; cbn [length] in Hlen.
      lia.
    + apply orb_false_iff in Hsp as [_ Hesc]; rewrite Hesc in Hpair.
      cbn [andb negb] in Hpair.
      specialize (IH normal (buffer ++ [escape_char; c]) Hpair).
      rewrite length_app in IH; cbn beta iota in IH; cbn [length] in IH; lia.
Qed.

(** Tokenizing the [str] of a value of tokenizer shape without literal
    designator gives the value back exactly when no escape character meets
    a special character. *)
Lemma tokenize_str_back (t : list item) :
  canonical t = true ->
  forallb (fun c => negb (is_designator c)) (literal_chars t) = true ->
  s (tokenize (SigmaString.__str__ (mkSigmaString t true))) = t
  <-> no_escape_pair (SigmaString.__str__ (mkSigmaString t true)) = true.
Proof.
  intros Hcan Hfree; rewrite tokenize_spec_scan; unfold spec_tokenize; split.
  - intros Hback.
    destruct (no_escape_pair (SigmaString.__str__ (mkSigmaString t true))) eqn:Hpair;
      [reflexivity|].
    pose proof (scan_drops_escape _ normal [] Hpair) as Hshort.
    rewrite Hback in Hshort; cbn [length] in Hshort; lia.
  - intros Hpair.
    now rewrite (scan_rendered_tokens t normal [] Hcan Hfree (or_introl eq_refl)
                   eq_refl Hpair).
Qed.

Lemma unescaped_without_designator (add_escaped : str) (text : str) :
  forallb (fun c => negb (char_in c (py "*" ++ py "?" ++ add_escaped))) text = true ->
  forallb (fun c => negb (is_designator c)) text = true.
Proof.
  induction text as [|c text IH]; [reflexivity|].
  cbn [forallb]; intros H; apply andb_true_iff in H as [Hc H].
  rewrite (IH H), andb_true_r.
  apply negb_true_iff in Hc.
  change (py "*" ++ py "?" ++ add_escaped)
    with ("*"%char :: "?"%char :: add_escaped) in Hc.
  unfold char_in in Hc; cbn [existsb] in Hc.
  apply orb_false_iff in Hc as [Hstar Hc]; apply orb_false_iff in Hc as [Hq _].
  unfold is_designator, char_mapping; now rewrite Hstar, Hq.
Qed.

(** Filtered characters are dropped and the other characters that need no
    escaping are copied: what the loop appends is never longer than the
    text, and shorter when a character is filtered. *)
Lemma loop_keeps_chars (escape_char' wildcard_multi wildcard_single : option str)
    (filter_chars escaped_chars : str) (text : str) :
  forall out : str,
    forallb (fun c => negb (negb (char_in c filter_chars) && char_in c escaped_chars))
            text = true ->
    exists kept : str,
      SigmaString.for_loop
        (SigmaString.convert_body escape_char' wildcard_multi wildcard_single
                                  filter_chars escaped_chars)
        (map Char text) out
      = Ok (out ++ kept)
      /\ length kept <= length text
      /\ (forallb (fun c => negb (char_in c filter_chars)) text = false ->
          length kept < length text).
Proof.
  induction text as [|c text IH]; intros out Hall.
  - exists []; cbn [map SigmaString.for_loop length forallb].
    rewrite app_nil_r; repeat split; [lia | discriminate].
  - cbn [forallb] in Hall; apply andb_true_iff in Hall as [Hc Hall].
    cbn [map SigmaString.for_loop forallb length].
    unfold SigmaString.convert_body at 1.
    destruct (char_in c filter_chars) eqn:Hfil; cbn [negb andb bind] in *.
    + destruct (IH out Hall) as (kept & Hloop & Hle & _).
      exists kept; split; [exact Hloop|]; split; [lia|]; intros _; lia.
    + apply negb_true_iff in Hc; rewrite Hc; cbn [bind].
      destruct (IH (out ++ [c]) Hall) as (kept & Hloop & Hle & Hlt).
      exists (c :: kept); split; [|split].
      * rewrite Hloop; now rewrite <- app_assoc.
      * cbn [length]; lia.
      * intros Hrest; specialize (Hlt Hrest); cbn [length]; lia.
Qed.

Lemma convert_keeps (escape_char' : option str) (filter_chars escaped_chars : str)
    (t : list item) :
  forall (out : str) (p : bool),
    forallb (fun c => negb (negb (char_in c filter_chars) && char_in c escaped_chars))
            (literal_chars t) = true ->
    exists kept : str,
      SigmaString.for_loop
        (SigmaString.convert_body escape_char' (Some (py "*")) (Some (py "?"))
                                  filter_chars escaped_chars)
        (SigmaString.__iter__ (mkSigmaString t p)) out
      = Ok (out ++ kept)
      /\ length kept <= length (SigmaString.__str__ (mkSigmaString t true))
      /\ (forallb (fun c => negb (char_in c filter_chars)) (literal_chars t) = false ->
          length kept < length (SigmaString.__str__ (mkSigmaString t true))).
Proof.
  induction t as [|[text|k] t IH]; intros out p Hall.
  - exists []; cbn; rewrite app_nil_r; repeat split; [lia | discriminate].
  - rewrite (iter_cons (Str text) t p p), for_loop_app.
    cbn [literal_chars flat_map] in *; fold (literal_chars t) in *.
    rewrite forallb_app in Hall; apply andb_true_iff in Hall as [Htext Hrest].
    destruct (loop_keeps_chars escape_char' (Some (py "*")) (Some (py "?"))
                filter_chars escaped_chars text out Htext)
      as (kept1 & Hloop1 & Hle1 & Hlt1).
    rewrite Hloop1; cbn [bind].
    destruct (IH (out ++ kept1) p Hrest) as (kept2 & Hloop2 & Hle2 & Hlt2).
    change (SigmaString.__str__ (mkSigmaString (Str text :: t) true))
      with (text ++ SigmaString.__str__ (mkSigmaString t true)).
    exists (kept1 ++ kept2); rewrite !length_app; split; [|split].
    + rewrite Hloop2; now rewrite <- app_assoc.
    + lia.
    + rewrite forallb_app; intros Hsome.
      apply andb_false_iff in Hsome as [Hsome | Hsome];
        [specialize (Hlt1 Hsome) | specialize (Hlt2 Hsome)]; lia.
  - rewrite (iter_cons (Special k) t p p); cbn [app SigmaString.for_loop].
    assert (Hk : SigmaString.convert_body escape_char' (Some (py "*")) (Some (py "?"))
                   filter_chars escaped_chars out (Wild k)
                 = Ok (out ++ [special_char_mapping k])) by (destruct k; reflexivity).
    rewrite Hk; cbn [bind].
    cbn [literal_chars flat_map app] in *; fold (literal_chars t) in *.
    destruct (IH (out ++ [special_char_mapping k]) p Hall)
      as (kept & Hloop & Hle & Hlt).
    change (SigmaString.__str__ (mkSigmaString (Special k :: t) true))
      with (special_char_mapping k :: SigmaString.__str__ (mkSigmaString t true)).
    exists (special_char_mapping k :: kept); cbn [length]; split; [|split].
    + rewrite Hloop; now rewrite <- app_assoc.
    + lia.
    + intros Hsome; specialize (Hlt Hsome); lia.
Qed.

(** C2 (as amended).  Let the configuration use the tokenizer's own
    designators, star and question mark, as wildcard representations, and
    let no literal character of [w] require escaping.  Then [convert]
    returns a string, and tokenizing that string gives the token sequence
    of [w] again exactly when [w] has the shape of a tokenizer result, no
    literal character of [w] is filtered, and no literal backslash of [w] is
    immediately followed by another backslash or by a wildcard. *)
Theorem roundtrip_escape_free (w : SigmaString) (escape_char' : option str)
    (add_escaped filter_chars : str) :
  forallb (fun c => negb (needs_escape (Some (py "*")) (Some (py "?"))
                                       add_escaped filter_chars c))
          (literal_chars (s w)) = true ->
  exists out : str,
    SigmaString.convert w escape_char' (Some (py "*")) (Some (py "?"))
                        add_escaped filter_chars = Ok out
    /\ (s (tokenize out) = s w
        <-> canonical (s w) = true
            /\ forallb (fun c => negb (char_in c filter_chars))
                       (literal_chars (s w)) = true
            /\ no_escape_pair (SigmaString.__str__ w) = true).
Proof.
  intros Hesc.
  unfold needs_escape in Hesc; cbn [SigmaString.or_empty] in Hesc.
  destruct w as [t p]; cbn [s] in *.
  change (SigmaString.__str__ (mkSigmaString t p))
    with (SigmaString.__str__ (mkSigmaString t true)).
  unfold SigmaString.convert; cbn [SigmaString.or_empty].
  destruct (forallb (fun c => negb (char_in c filter_chars)) (literal_chars t))
    eqn:Hfil.
  - assert (Hset : forallb (fun c => negb (char_in c (py "*" ++ py "?" ++ add_escaped)))
                           (literal_chars t) = true).
    { rewrite forallb_forall in *; intros c Hc.
      specialize (Hesc c Hc); specialize (Hfil c Hc).
      rewrite Hfil in Hesc; exact Hesc. }
    pose proof (unescaped_without_designator add_escaped _ Hset) as Hfree.
    exists (SigmaString.__str__ (mkSigmaString t true)); split.
    + exact (convert_copies t escape_char' filter_chars _ [] p Hfil Hset).
    + split.
      * intros Hback.
        assert (Hcan : canonical t = true)
          by (rewrite <- Hback; apply tokenize_canonical).
        split; [exact Hcan|]; split; [reflexivity|].
        now apply (tokenize_str_back t Hcan Hfree).
      * intros (Hcan & _ & Hpair).
        now apply (tokenize_str_back t Hcan Hfree).
  - destruct (convert_keeps escape_char' filter_chars _ t [] p Hesc)
      as (kept & Hloop & _ & Hlt).
    specialize (Hlt Hfil).
    exists kept; split; [exact Hloop|]; split.
    + intros Hback.
      pose proof (spec_scan_length kept normal []) as Hlen.
      change (spec_scan normal [] kept) with (spec_tokenize kept) in Hlen.
      rewrite <- (tokenize_spec_scan kept), Hback in Hlen.
      cbn [length] in Hlen; lia.
    + intros (_ & Hnone & _); discriminate.
Qed.

Lemma roundtrip_escape_free_witness :
  exists out : str,
    convert_default (tokenize (py "C:\Windows\System32\cmd.exe*")) = Ok out
    /\ s (tokenize out) = s (tokenize (py "C:\Windows\System32\cmd.exe*")).
Proof.
  destruct (roundtrip_escape_free (tokenize (py "C:\Windows\System32\cmd.exe*"))
              (Some (py "\")) [] [] eq_refl)
    as (out & Hout & Hback).
  exists out; split; [exact Hout|].
  apply Hback; repeat split.
Defined.

(** A literal backslash before a wildcard needs no escaping under the
    default configuration, yet it does not survive the round trip: it is
    written as it is and then read as escaping the wildcard. *)
Lemma roundtrip_backslash_counterexample :
  s (tokenize (py "\\*")) = [Str (py "\"); Special WILDCARD_MULTI]
  /\ forallb (fun c => negb (needs_escape (Some (py "*")) (Some (py "?")) [] [] c))
             (literal_chars (s (tokenize (py "\\*")))) = true
  /\ convert_default (tokenize (py "\\*")) = Ok (py "\*")
  /\ s (tokenize (py "\*")) = [Str (py "*")]
  /\ s (tokenize (py "\*")) <> s (tokenize (py "\\*")).
Proof.
  split; [reflexivity|]; split; [reflexivity|]; split; [reflexivity|].
  split; [reflexivity | discriminate].
Qed.

(** The other side conditions of the round trip are needed as well. *)
Example roundtrip_needs_unfiltered :
  SigmaString.convert (tokenize (py "a")) (Some (py "\")) (Some (py "*"))
                      (Some (py "?")) [] (py "a") = Ok []
  /\ s (tokenize []) <> s (tokenize (py "a")).
Proof. split; [reflexivity | discriminate]. Qed.

Example roundtrip_needs_canonical :
  convert_default (mkSigmaString [Str (py "a"); Str (py "b")] true) = Ok (py "ab")
  /\ s (tokenize (py "ab")) <> [Str (py "a"); Str (py "b")].
Proof. split; [reflexivity | discriminate]. Qed.

Example roundtrip_needs_designators :
  SigmaString.convert (tokenize (py "*")) (Some (py "\")) (Some (py "%"))
                      (Some (py "_")) [] [] = Ok (py "%")
  /\ s (tokenize (py "%")) <> s (tokenize (py "*")).
Proof. split; [reflexivity | discriminate]. Qed.

Section ConvertRefinement.

Variables (wildcard_multi wildcard_single : option str).
Variables (add_escaped filter_chars : str).

Lemma body_emits_escape (e : str) (u : unit_item) (out : str) :
  SigmaString.convert_body (Some e) wildcard_multi wildcard_single filter_chars
    (SigmaString.or_empty wildcard_multi ++ SigmaString.or_empty wildcard_single
     ++ add_escaped) out u
  = (x <- spec_emit e wildcard_multi wildcard_single add_escaped filter_chars u ;;
     Ok (out ++ x)).
Proof.
  destruct u as [c|[|]]; cbn [SigmaString.convert_body spec_emit].
  - destruct (char_in c filter_chars); cbn [bind]; [now rewrite app_nil_r|].
    destruct (char_in c _); cbn [SigmaString.iadd bind];
      [now rewrite <- app_assoc | reflexivity].
  - destruct wildcard_multi; reflexivity.
  - destruct wildcard_single; reflexivity.
Qed.

End ConvertRefinement.

Section LoopRefinement.

Variable body : str -> unit_item -> result str.
Variable emit : unit_item -> result str.

(** A loop whose body appends what [emit] gives computes the concatenation
    of the emissions, and stops at the first failure. *)
Lemma loop_refines (units : list unit_item) :
  forall out : str,
    (forall u, In u units ->
               forall o, body o u = (x <- emit u ;; Ok (o ++ x))) ->
    SigmaString.for_loop body units out
    = (rest <- spec_convert emit units ;; Ok (out ++ rest)).
Proof.
  induction units as [|u units IH]; intros out Hall; simpl.
  - now rewrite app_nil_r.
  - rewrite (Hall u (or_introl eq_refl)).
    destruct (emit u) as [x|err]; simpl; [|reflexivity].
    rewrite IH by (intros v Hv; apply Hall; now right).
    destruct (spec_convert emit units); simpl; [|reflexivity].
    now rewrite app_assoc.
Qed.

End LoopRefinement.

Lemma convert_refines_escape (self : SigmaString) (e : str)
    (wildcard_multi wildcard_single : option str) (add_escaped filter_chars : str) :
  SigmaString.convert self (Some e) wildcard_multi wildcard_single
                      add_escaped filter_chars
  = spec_convert (spec_emit e wildcard_multi wildcard_single add_escaped filter_chars)
                 (SigmaString.__iter__ self).
Proof.
  unfold SigmaString.convert.
  rewrite (loop_refines _ (spec_emit e wildcard_multi wildcard_single
                                     add_escaped filter_chars)).
  - destruct (spec_convert _ _); reflexivity.
  - intros u _ o; apply body_emits_escape.
Qed.

(** C4.  With the escape character unset, [convert] does not emit for a
    literal character that has to be escaped: it copies the characters
    before it and then stops with a [TypeError], whatever follows. *)
Theorem convert_unset_escape_stops_at_literal (before : str) (c : ascii)
    (after : str) (rest : list item) (p : bool)
    (wildcard_multi wildcard_single : option str) (add_escaped filter_chars : str) :
  forallb (fun d => negb (needs_escape wildcard_multi wildcard_single
                                       add_escaped filter_chars d))
          before = true ->
  needs_escape wildcard_multi wildcard_single add_escaped filter_chars c = true ->
  SigmaString.convert (mkSigmaString (Str (before ++ c :: after) :: rest) p)
                      None wildcard_multi wildcard_single add_escaped filter_chars
  = Raise TypeError.
Proof.
  intros Hbefore Hc.
  unfold SigmaString.convert.
  rewrite (iter_cons (Str (before ++ c :: after)) rest p p).
  rewrite map_app, <- app_assoc, for_loop_app.
  destruct (loop_keeps_chars None wildcard_multi wildcard_single filter_chars _
              before [] Hbefore) as (kept & Hloop & _).
  rewrite Hloop; cbn [bind map app SigmaString.for_loop].
  unfold needs_escape in Hc; apply andb_true_iff in Hc as [Hfil Hset].
  apply negb_true_iff in Hfil.
  unfold SigmaString.convert_body at 1; rewrite Hfil, Hset.
  reflexivity.
Qed.

Lemma convert_unset_escape_stops_at_literal_witness :
  SigmaString.convert (tokenize (py "ab\*cd?")) None (Some (py "*")) (Some (py "?"))
                      [] []
  = Raise TypeError.
Proof.
  apply (convert_unset_escape_stops_at_literal (py "ab") "*"%char (py "cd")
           [Special WILDCARD_SINGLE] true (Some (py "*")) (Some (py "?")) [] []);
    reflexivity.
Defined.

Lemma spec_convert_app (emit : unit_item -> result str) (xs ys : list unit_item) :
  spec_convert emit (xs ++ ys)
  = (x <- spec_convert emit xs ;; y <- spec_convert emit ys ;; Ok (x ++ y)).
Proof.
  induction xs as [|u xs IH]; simpl.
  - destruct (spec_convert emit ys); reflexivity.
  - destruct (emit u) as [o|err]; simpl; [|reflexivity].
    rewrite IH.
    destruct (spec_convert emit xs); simpl; [|reflexivity].
    destruct (spec_convert emit ys); simpl; [|reflexivity].
    now rewrite app_assoc.
Qed.

Lemma spec_convert_chars (e : str) (wildcard_multi wildcard_single : option str)
    (add_escaped filter_chars : str) (text : str) :
  exists out : str,
    spec_convert (spec_emit e wildcard_multi wildcard_single add_escaped filter_chars)
                 (map Char text) = Ok out.
Proof.
  induction text as [|c text [out IH]]; simpl; [now exists []|].
  rewrite IH.
  destruct (char_in c filter_chars); simpl; [eauto|].
  destruct (char_in c _); simpl; eauto.
Qed.

(** With an escape character set, [convert] raises [SigmaValueError] exactly
    on the values that contain a wildcard without representation, and
    returns a string on all others. *)
Lemma convert_value_error_iff (self : SigmaString) (e : str)
    (wildcard_multi wildcard_single : option str) (add_escaped filter_chars : str) :
  if unsupported_wildcard wildcard_multi wildcard_single (s self)
  then SigmaString.convert self (Some e) wildcard_multi wildcard_single
                           add_escaped filter_chars = Raise SigmaValueError
  else exists out : str,
      SigmaString.convert self (Some e) wildcard_multi wildcard_single
                          add_escaped filter_chars = Ok out.
Proof.
  rewrite convert_refines_escape.
  destruct self as [t p]; cbn [s].
  induction t as [|[text|k] t IH].
  - simpl; now exists [].
  - rewrite (iter_cons (Str text) t p p), spec_convert_app.
    destruct (spec_convert_chars e wildcard_multi wildcard_single add_escaped
                                 filter_chars text) as [o Ho].
    rewrite Ho; cbn [bind].
    change (unsupported_wildcard wildcard_multi wildcard_single (Str text :: t))
      with (unsupported_wildcard wildcard_multi wildcard_single t).
    destruct (unsupported_wildcard wildcard_multi wildcard_single t).
    + now rewrite IH.
    + destruct IH as [out ->]; simpl; eauto.
  - rewrite (iter_cons (Special k) t p p); cbn [app spec_convert].
    unfold unsupported_wildcard in *; cbn [contains_wildcard existsb] in *.
    fold (contains_wildcard WILDCARD_MULTI t) in *.
    fold (contains_wildcard WILDCARD_SINGLE t) in *.
    destruct k, wildcard_multi as [wm|], wildcard_single as [ws|];
      cbn [spec_emit bind SpecialChars_eqb orb andb] in *;
      rewrite ?andb_false_r, ?andb_true_r, ?orb_false_r, ?orb_true_r in *;
      try reflexivity;
      try (destruct IH as [out ->]; simpl; eauto; fail);
      try (destruct (contains_wildcard _ t);
           [now rewrite IH | destruct IH as [out ->]; simpl; eauto]).
Qed.

(** The failure is raised when the loop reaches the wildcard: what follows
    it is not looked at. *)
Lemma convert_stops_at_wildcard (before after : list item) (e : str)
    (wildcard_single : option str) (add_escaped filter_chars : str) (p : bool) :
  unsupported_wildcard None wildcard_single before = false ->
  SigmaString.convert (mkSigmaString (before ++ Special WILDCARD_MULTI :: after) p)
                      (Some e) None wildcard_single add_escaped filter_chars
  = Raise SigmaValueError.
Proof.
  intros Hbefore.
  pose proof (convert_value_error_iff (mkSigmaString before p) e None
                wildcard_single add_escaped filter_chars) as Hb.
  cbn [s] in Hb; rewrite Hbefore in Hb; destruct Hb as [out Hb].
  rewrite convert_refines_escape in *.
  unfold SigmaString.__iter__ in *; cbn [s] in *.
  rewrite flat_map_app, spec_convert_app, Hb.
  reflexivity.
Qed.

(** C5.  With the escape character unset, a literal character that has to
    be escaped makes [convert] stop with a [TypeError]: on a value without
    any wildcard, and, before the wildcard is reached, on a value whose
    Multi wildcard has no representation. *)
Theorem convert_unset_escape_type_error :
  SigmaString.convert (tokenize (py "\*")) None (Some (py "*")) (Some (py "?")) [] []
  = Raise TypeError
  /\ unsupported_wildcard (Some (py "*")) (Some (py "?")) (s (tokenize (py "\*")))
     = false
  /\ SigmaString.convert (tokenize (py "\?*")) None None (Some (py "?")) [] []
     = Raise TypeError
  /\ unsupported_wildcard None (Some (py "?")) (s (tokenize (py "\?*"))) = true.
Proof. split; [|split; [|split]]; reflexivity. Qed.

(** ** Boundary tests, equality and concatenation *)

Lemma getitem_first {A : Type} (x : A) (t : list A) : getitem (x :: t) 0 = Ok x.
Proof. reflexivity. Qed.

Lemma getitem_last {A : Type} (front : list A) (x : A) :
  getitem (front ++ [x]) (-1) = Ok x.
Proof.
  unfold getitem; rewrite length_app; cbn [length].
  replace (-1 <? 0)%Z with true by reflexivity.
  set (n := Z.of_nat (length front + 1)).
  assert (Hn : (n + -1 = Z.of_nat (length front))%Z) by (unfold n; lia).
  rewrite Hn.
  replace ((Z.of_nat (length front) <? 0) || (n <=? Z.of_nat (length front)))%Z
    with false.
  - rewrite Nat2Z.id, nth_error_app2 by lia.
    now rewrite Nat.sub_diag.
  - symmetry; apply orb_false_iff; split; [apply Z.ltb_ge | apply Z.leb_gt]; lia.
Qed.

Lemma getitem_empty {A : Type} (i : Z) : getitem (@nil A) i = Raise IndexError.
Proof.
  unfold getitem; cbn [length Z.of_nat].
  rewrite Z.add_0_l.
  replace (if (i <? 0)%Z then i else i) with i by (destruct (i <? 0)%Z; reflexivity).
  destruct (i <? 0)%Z eqn:Hi; cbn [orb]; [reflexivity|].
  apply Z.ltb_ge, Z.leb_le in Hi; now rewrite Hi.
Qed.

(** C6.  [startswith] looks at the first element of the tuple only and
    [endswith] at the last only.  When the query and that element differ in
    kind the answer is false, whatever they contain; when both are text the
    answer is the prefix (respectively suffix) test on the text of that one
    element; when both are special characters the answer is whether they
    are the same one. *)
Theorem boundary_token_decides :
  (forall (c : item) (rest : list item) (p : bool) (val : py_value),
      SigmaString.startswith (mkSigmaString (c :: rest) p) val
      = SigmaString.startswith (mkSigmaString [c] p) val)
  /\ (forall (front : list item) (c : item) (p : bool) (val : py_value),
        SigmaString.endswith (mkSigmaString (front ++ [c]) p) val
        = SigmaString.endswith (mkSigmaString [c] p) val)
  /\ (forall (c : item) (rest front : list item) (p : bool) (val : py_value),
        same_kind c val = false ->
        SigmaString.startswith (mkSigmaString (c :: rest) p) val = Ok false
        /\ SigmaString.endswith (mkSigmaString (front ++ [c]) p) val = Ok false)
  /\ (forall (text v : str) (rest front : list item) (p : bool),
        exists b1 b2 : bool,
          SigmaString.startswith (mkSigmaString (Str text :: rest) p) (PyStr v) = Ok b1
          /\ (b1 = true <-> exists tail, text = v ++ tail)
          /\ SigmaString.endswith (mkSigmaString (front ++ [Str text]) p) (PyStr v) = Ok b2
          /\ (b2 = true <-> exists head, text = head ++ v))
  /\ (forall (k k' : SpecialChars) (rest front : list item) (p : bool),
        exists b1 b2 : bool,
          SigmaString.startswith (mkSigmaString (Special k :: rest) p)
                                 (PySpecialChars k') = Ok b1
          /\ (b1 = true <-> k = k')
          /\ SigmaString.endswith (mkSigmaString (front ++ [Special k]) p)
                                  (PySpecialChars k') = Ok b2
          /\ (b2 = true <-> k = k')).
Proof.
  split; [|split; [|split; [|split]]].
  - intros c rest p val; unfold SigmaString.startswith; cbn [s].
    now rewrite !getitem_first.
  - intros front c p val; unfold SigmaString.endswith; cbn [s].
    rewrite getitem_last.
    change [c] with ([] ++ [c]); now rewrite getitem_last.
  - intros c rest front p val Hkind.
    unfold SigmaString.startswith, SigmaString.endswith; cbn [s].
    rewrite getitem_first, getitem_last; cbn [bind].
    destruct c, val; try discriminate; split; reflexivity.
  - intros text v rest front p.
    exists (str_startswith text v), (str_endswith text v).
    unfold SigmaString.startswith, SigmaString.endswith; cbn [s].
    rewrite getitem_first, getitem_last; cbn [bind].
    split; [reflexivity|]. split; [apply str_startswith_prefix|].
    split; [reflexivity | apply str_endswith_suffix].
  - intros k k' rest front p.
    exists (SpecialChars_eqb k k'), (SpecialChars_eqb k k').
    unfold SigmaString.startswith, SigmaString.endswith; cbn [s].
    rewrite getitem_first, getitem_last; cbn [bind].
    split; [reflexivity|]. split; [apply SpecialChars_eqb_eq|].
    split; [reflexivity | apply SpecialChars_eqb_eq].
Qed.

Lemma boundary_token_decides_witness :
  SigmaString.startswith (tokenize (py "*abc")) (PyStr (py "*")) = Ok false
  /\ SigmaString.endswith (tokenize (py "abc*")) (PyStr (py "*")) = Ok false.
Proof.
  destruct boundary_token_decides as (_ & _ & Hkind & _).
  apply (Hkind (Special WILDCARD_MULTI) [Str (py "abc")] [Str (py "abc")] true
               (PyStr (py "*"))).
  reflexivity.
Defined.

(** C10.  On an empty token sequence, such as the result of tokenizing the
    empty string, reading the boundary element fails: [startswith] and
    [endswith] raise [IndexError] and return no boolean. *)
Theorem boundary_of_empty_raises :
  s (tokenize []) = []
  /\ forall (p : bool) (val : py_value),
       SigmaString.startswith (mkSigmaString [] p) val = Raise IndexError
       /\ SigmaString.endswith (mkSigmaString [] p) val = Raise IndexError.
Proof.
  split; [reflexivity|].
  intros p val; unfold SigmaString.startswith, SigmaString.endswith; cbn [s].
  now rewrite !getitem_empty.
Qed.

(** C9.  Comparing with an operand that is neither a [str] nor a
    [SigmaString] raises [NotImplementedError]; no boolean is returned. *)
Theorem eq_unsupported_operand_raises (self : SigmaString) (other : py_value) :
  (forall text, other <> PyStr text) ->
  (forall w, other <> PySigmaString w) ->
  SigmaString.__eq__ self other = Raise NotImplementedError.
Proof.
  intros Hstr Hsigma.
  destruct other; try reflexivity.
  - now contradiction (Hstr text).
  - now contradiction (Hsigma w).
Qed.

Lemma eq_unsupported_operand_raises_witness :
  SigmaString.__eq__ (tokenize (py "a*")) (PyInt 5) = Raise NotImplementedError.
Proof.
  apply eq_unsupported_operand_raises; intros x; discriminate.
Defined.

Lemma no_empty_run_app (a b : list item) :
  no_empty_run (a ++ b) = no_empty_run a && no_empty_run b.
Proof. apply forallb_app. Qed.

Lemma no_empty_run_text (text : str) : no_empty_run [Str text] = nonempty text.
Proof. destruct text; reflexivity. Qed.

(** C8 (as amended).  The tokenizer never produces an empty literal run.
    Concatenation with another sequence without empty runs, and with a
    special character on either side, keeps that property; concatenation
    with bare text keeps it exactly when the text is not empty. *)
Theorem literal_runs_nonempty :
  (forall raw : str, no_empty_run (s (tokenize raw)) = true)
  /\ (forall self other : SigmaString,
        no_empty_run (s self) = true ->
        no_empty_run (s other) = true ->
        returns_without_empty_run (SigmaString.__add__ self (PySigmaString other))
        = true)
  /\ (forall (self : SigmaString) (k : SpecialChars),
        no_empty_run (s self) = true ->
        returns_without_empty_run (SigmaString.__add__ self (PySpecialChars k)) = true
        /\ returns_without_empty_run (SigmaString.__radd__ self (PySpecialChars k))
           = true)
  /\ (forall (self : SigmaString) (text : str),
        no_empty_run (s self) = true ->
        returns_without_empty_run (SigmaString.__add__ self (PyStr text))
        = nonempty text
        /\ returns_without_empty_run (SigmaString.__radd__ self (PyStr text))
           = nonempty text).
Proof.
  split; [|split; [|split]].
  - intros raw; apply canonical_no_empty_run, tokenize_canonical.
  - intros self other Hself Hother; cbn.
    now rewrite no_empty_run_app, Hself, Hother.
  - intros self k Hself; split; cbn.
    + now rewrite no_empty_run_app, Hself.
    + exact Hself.
  - intros self text Hself; split.
    + cbn [SigmaString.__add__ returns_without_empty_run s].
      now rewrite no_empty_run_app, Hself, no_empty_run_text.
    + cbn [SigmaString.__radd__ returns_without_empty_run s].
      change (Str text :: s self) with ([Str text] ++ s self).
      now rewrite no_empty_run_app, Hself, no_empty_run_text, andb_true_r.
Qed.

Lemma literal_runs_nonempty_witness :
  returns_without_empty_run
    (SigmaString.__add__ (tokenize (py "a*")) (PyStr (py "b"))) = true
  /\ returns_without_empty_run
       (SigmaString.__radd__ (tokenize (py "a*")) (PyStr (py "b"))) = true.
Proof.
  destruct literal_runs_nonempty as (_ & _ & _ & Htext).
  apply (Htext (tokenize (py "a*")) (py "b")).
  reflexivity.
Defined.

(** Appending the empty text to a tokenizer result stores an empty literal
    run. *)
Lemma add_empty_text_counterexample :
  no_empty_run (s (tokenize (py "a"))) = true
  /\ SigmaString.__add__ (tokenize (py "a")) (PyStr [])
     = Returned (mkSigmaString [Str (py "a"); Str []] true)
  /\ no_empty_run [Str (py "a"); Str []] = false.
Proof. split; [|split]; reflexivity. Qed.

(** ** Numbers *)

Lemma truncate_integer (z : Z) : truncate_toward_zero (inject_Z z) = z.
Proof.
  unfold truncate_toward_zero.
  destruct (Qle_bool 0 (inject_Z z)); [apply Qfloor_Z | apply Qceiling_Z].
Qed.

Lemma int_of_float_truncates (f : spec_float) :
  is_finite_float f = true ->
  int_of_float f = IntOk (truncate_toward_zero (float_value f)).
Proof.
  destruct f as [sign|sign| |sign m e]; try discriminate; intros _.
  - reflexivity.
  - unfold int_of_float, float_value.
    destruct (Z.leb_spec 0 e) as [Hpos | Hneg].
    + rewrite truncate_integer, Z.shiftl_mul_pow2 by assumption.
      destruct sign; [|reflexivity].
      f_equal; now rewrite <- Z.mul_opp_l.
    + rewrite Z.shiftr_div_pow2 by lia.
      assert (Hd : Zpos (Z.to_pos (2 ^ (- e))) = (2 ^ (- e))%Z).
      { apply Z2Pos.id, Z.pow_pos_nonneg; lia. }
      unfold truncate_toward_zero.
      destruct sign.
      * replace (Qle_bool 0 (Zneg m # Z.to_pos (2 ^ (- e)))) with false by reflexivity.
        unfold Qceiling, Qfloor; cbn [Qopp Qnum Qden Z.opp].
        now rewrite Hd.
      * replace (Qle_bool 0 (Zpos m # Z.to_pos (2 ^ (- e)))) with true by reflexivity.
        unfold Qfloor; now rewrite Hd.
Qed.




(** [None] is no number either, and the [TypeError] of [int] is not caught. *)
Example number_none_type_error :
  SigmaNumber.__post_init__ decimal_literal PyNone = Raise TypeError.
Proof. reflexivity. Qed.

(** ** Regular-expression escaping *)

Lemma chunks_cons (text : str) (start : option nat) (p : nat) (pos : list nat) :
  chunks text start (p :: pos)
  = slice text start (Some p) :: chunks text (Some p) pos.
Proof. reflexivity. Qed.

Lemma chunks_start (text : str) (pos : list nat) :
  chunks text None pos = chunks text (Some 0) pos.
Proof. destruct pos; reflexivity. Qed.

Lemma join_cons_chunks (sep x text : str) (start : option nat) (pos : list nat) :
  join sep (x :: chunks text start pos) = x ++ sep ++ join sep (chunks text start pos).
Proof. destruct pos; reflexivity. Qed.

Lemma first_alt_nonempty (alts : list str) (text a : str) :
  forallb nonempty alts = true ->
  first_alt false alts text = Some a ->
  exists x a', a = x :: a'.
Proof.
  induction alts as [|b alts IH]; cbn [first_alt forallb]; [discriminate|].
  intros Hall Hfirst; apply andb_true_iff in Hall as [Hb Hall].
  destruct (str_startswith text b && negb (false && (length b =? 0))).
  - injection Hfirst as <-.
    destruct b as [|x b']; [discriminate | eauto].
  - auto.
Qed.

Lemma first_alt_at_end (alts : list str) :
  forallb nonempty alts = true -> first_alt false alts [] = None.
Proof.
  intros Hall.
  destruct (first_alt false alts []) as [a|] eqn:Hfirst; [|reflexivity].
  destruct (first_alt_nonempty _ _ Hall Hfirst) as (x & a' & ->).
  clear Hall; induction alts as [|b alts IH]; cbn [first_alt] in Hfirst; [discriminate|].
  destruct b as [|y b']; cbn in Hfirst; [discriminate | auto].
Qed.

Lemma skipn_snoc (b : nat) (pre : str) (c : ascii) :
  b <= length pre -> skipn b (pre ++ [c]) = skipn b pre ++ [c].
Proof.
  intros Hb; rewrite skipn_app.
  replace (b - length pre) with 0 by lia; reflexivity.
Qed.

Lemma slice_passed (pre rest : str) (b : nat) :
  slice (pre ++ rest) (Some b) (Some (length pre)) = skipn b pre.
Proof.
  unfold slice; rewrite firstn_app, Nat.sub_diag, firstn_all; cbn [firstn].
  now rewrite app_nil_r.
Qed.

Lemma join_chunks_inserts (alts : list str) (sep : str) :
  forallb nonempty alts = true ->
  forall (rest pre : str) (skip b : nat),
    b <= length pre ->
    join sep (chunks (pre ++ rest) (Some b)
                     (finditer_starts alts skip (length pre) rest))
    = skipn b pre ++ insert_escapes alts sep skip rest.
Proof.
  intros Hall.
  assert (Hstep : forall (rest pre : str) (c : ascii) (skip b : nat),
             b <= length pre ->
             (forall pre' skip' b', b' <= length pre' ->
                join sep (chunks (pre' ++ rest) (Some b')
                                 (finditer_starts alts skip' (length pre') rest))
                = skipn b' pre' ++ insert_escapes alts sep skip' rest) ->
             join sep (chunks (pre ++ c :: rest) (Some b)
                              (finditer_starts alts skip (S (length pre)) rest))
             = skipn b pre ++ c :: insert_escapes alts sep skip rest).
  { intros rest pre c skip b Hb IH.
    specialize (IH (pre ++ [c]) skip b).
    rewrite length_app, Nat.add_1_r, <- app_assoc in IH; cbn [app] in IH.
    rewrite IH by lia.
    now rewrite skipn_snoc, <- app_assoc by assumption. }
  induction rest as [|c rest IH]; intros pre skip b Hb.
  - cbn [finditer_starts insert_escapes].
    rewrite first_alt_at_end by assumption.
    replace (match skip with 0 | _ => @nil nat end) with (@nil nat)
      by (destruct skip; reflexivity).
    unfold chunks, slice; cbn [map combine fst snd join app].
    now rewrite firstn_all, !app_nil_r.
  - cbn [finditer_starts insert_escapes].
    destruct skip as [|skip]; [|now apply Hstep].
    destruct (first_alt false alts (c :: rest)) as [a|] eqn:Hfirst;
      [|now apply Hstep].
    destruct (first_alt_nonempty _ _ Hall Hfirst) as (x & a' & ->).
    rewrite chunks_cons, join_cons_chunks, slice_passed.
    specialize (IH (pre ++ [c]) (length (x :: a') - 1) (length pre)).
    rewrite length_app, Nat.add_1_r, <- app_assoc in IH; cbn [app] in IH.
    rewrite IH by lia.
    rewrite skipn_app, skipn_all, Nat.sub_diag; reflexivity.
Qed.

Lemma escape_inserts (self : SigmaRegularExpression) (escaped : list str)
    (escape_char' : str) :
  forallb nonempty (escaped ++ [escape_char']) = true ->
  SigmaRegularExpression.escape self escaped escape_char'
  = insert_escapes (escaped ++ [escape_char']) escape_char' 0 (regexp self).
Proof.
  intros Hall; unfold SigmaRegularExpression.escape.
  fold (chunks (regexp self) None
               (finditer_starts (escaped ++ [escape_char']) 0 0 (regexp self))).
  rewrite chunks_start.
  exact (@join_chunks_inserts _ escape_char' Hall (regexp self) [] 0 0 (le_n 0)).
Qed.

Lemma first_alt_single (special : str) (c : ascii) (rest : str) :
  first_alt false (map (fun d => [d]) special) (c :: rest)
  = if char_in c special then Some [c] else None.
Proof.
  induction special as [|d special IH]; [reflexivity|].
  cbn [map first_alt str_startswith char_in existsb andb negb length Nat.eqb].
  rewrite !andb_true_r, IH.
  destruct (Ascii.eqb_spec c d) as [-> | _]; reflexivity.
Qed.

Lemma insert_escapes_single (special : str) (e : ascii) (text : str) :
  insert_escapes (map (fun d => [d]) special) [e] 0 text
  = escape_each special e text.
Proof.
  induction text as [|c text IH]; [reflexivity|].
  cbn [insert_escapes escape_each flat_map].
  rewrite first_alt_single.
  destruct (char_in c special); cbn [length Nat.sub app]; now rewrite IH.
Qed.

Lemma escape_every_single (special : str) (e : ascii) (text : str) :
  escape_every_occurrence (map (fun d => [d]) special) [e] text
  = escape_each special e text.
Proof.
  induction text as [|c text IH]; [reflexivity|].
  cbn [escape_every_occurrence escape_each flat_map]; rewrite IH.
  assert (Hin : existsb (str_startswith (c :: text)) (map (fun d => [d]) special)
                = char_in c special).
  { clear IH; induction special as [|d special IHs]; [reflexivity|].
    cbn [map existsb str_startswith char_in]; rewrite andb_true_r.
    now rewrite IHs. }
  rewrite Hin; destruct (char_in c special); reflexivity.
Qed.

Lemma escape_single_chars (self : SigmaRegularExpression) (special : str) (e : ascii) :
  SigmaRegularExpression.escape self (map (fun d => [d]) special) [e]
  = escape_each (special ++ [e]) e (regexp self).
Proof.
  rewrite escape_inserts.
  - change [[e]] with (map (fun d => [d]) [e]).
    now rewrite <- map_app, insert_escapes_single.
  - rewrite forallb_app; apply andb_true_iff; split; [|reflexivity].
    induction special; [reflexivity | assumption].
Qed.

(** C3 (as amended).  For non-empty delimiters, [escape] returns the
    pattern with one escape character inserted immediately before every
    match of the left-to-right scan for a delimiter or the escape
    character, in which the first listed delimiter that occurs at a
    position is taken and the search resumes after it, and with every other
    character unchanged.  When all delimiters are single characters, that
    is before every occurrence of a delimiter or of the escape character.
    On the pattern a.b\c with delimiters dot and backslash, one backslash is
    inserted before the dot and one before the backslash. *)
Theorem escape_inserts_before_matches :
  (forall (self : SigmaRegularExpression) (escaped : list str) (e : ascii),
      forallb nonempty escaped = true ->
      SigmaRegularExpression.escape self escaped [e]
      = insert_escapes (escaped ++ [[e]]) [e] 0 (regexp self))
  /\ (forall (self : SigmaRegularExpression) (special : str) (e : ascii),
        SigmaRegularExpression.escape self (map (fun d => [d]) special) [e]
        = escape_every_occurrence (map (fun d => [d]) special ++ [[e]]) [e]
                                  (regexp self)
        /\ SigmaRegularExpression.escape self (map (fun d => [d]) special) [e]
           = escape_each (special ++ [e]) e (regexp self))
  /\ SigmaRegularExpression.escape (mkSigmaRegularExpression (py "a.b\c"))
                                   [py "."; py "\"] (py "\")
     = py "a\.b\\c".
Proof.
  split; [|split].
  - intros self escaped e Hall; apply escape_inserts.
    rewrite forallb_app, Hall; reflexivity.
  - intros self special e; split.
    + change [[e]] with (map (fun d => [d]) [e]).
      rewrite <- map_app, escape_every_single.
      apply escape_single_chars.
    + apply escape_single_chars.
  - reflexivity.
Qed.

Lemma escape_inserts_before_matches_witness :
  SigmaRegularExpression.escape (mkSigmaRegularExpression (py "a//b/c"))
                                [py "//"; py "/"] (py "\")
  = py "a\//b\/c".
Proof.
  destruct escape_inserts_before_matches as (Hscan & _ & _).
  etransitivity.
  - apply (Hscan (mkSigmaRegularExpression (py "a//b/c")) [py "//"; py "/"] "\"%char).
    reflexivity.
  - reflexivity.
Defined.

(** A delimiter that occurs inside the match of an earlier listed delimiter
    gets no escape character. *)
Lemma escape_overlap_counterexample :
  SigmaRegularExpression.escape (mkSigmaRegularExpression (py "ab"))
                                [py "ab"; py "b"] (py "\")
  = py "\ab"
  /\ escape_every_occurrence [py "ab"; py "b"; py "\"] (py "\") (py "ab")
     = py "\a\b"
  /\ SigmaRegularExpression.escape (mkSigmaRegularExpression (py "ab"))
                                   [py "ab"; py "b"] (py "\")
     <> escape_every_occurrence [py "ab"; py "b"; py "\"] (py "\") (py "ab").
Proof. split; [|split]; [reflexivity | reflexivity | discriminate]. Qed.

(** * Further properties of the module *)

(** ** Tokenizer *)

(** X1.  A raw string without designator and without escape character is
    tokenized to one literal run equal to the string (to the empty sequence
    if the string is empty), and the result contains no special
    character. *)
Theorem tokenize_plain_text (raw : str) :
  forallb plain_char raw = true ->
  s (tokenize raw) = flush raw
  /\ SigmaString.contains_special (tokenize raw) = false.
Proof.
  intros Hplain.
  assert (Hs : s (tokenize raw) = flush raw).
  { rewrite tokenize_spec_scan; unfold spec_tokenize.
    rewrite <- (app_nil_r raw) at 1.
    now rewrite spec_scan_plain. }
  split; [exact Hs|].
  unfold SigmaString.contains_special; rewrite Hs.
  destruct raw; reflexivity.
Qed.

Lemma tokenize_plain_text_witness :
  s (tokenize (py "hello world")) = [Str (py "hello world")]
  /\ SigmaString.contains_special (tokenize (py "hello world")) = false.
Proof. apply (tokenize_plain_text (py "hello world")); reflexivity. Defined.

(** X2.  Tokenizing never lengthens: the length of the parsed value is at
    most the length of the raw string. *)
Theorem tokenize_never_lengthens (raw : str) :
  SigmaString.__len__ (tokenize raw) <= length raw.
Proof.
  unfold SigmaString.__len__.
  change (tokenize raw) with (mkSigmaString (s (tokenize raw)) true).
  rewrite tokenize_spec_scan.
  exact (spec_scan_length raw normal []).
Qed.

(** X3.  Iterating a value yields one unit per character of its [str]:
    reading every unit as its character gives [__str__], so [__len__] is
    the number of units. *)
Theorem iter_spells_str (self : SigmaString) :
  map unit_char (SigmaString.__iter__ self) = SigmaString.__str__ self
  /\ SigmaString.__len__ self = length (SigmaString.__iter__ self).
Proof.
  assert (H : map unit_char (SigmaString.__iter__ self) = SigmaString.__str__ self).
  { unfold SigmaString.__iter__, SigmaString.__str__.
    induction (s self) as [|[text|k] t IH]; cbn [flat_map]; [reflexivity| |].
    - rewrite map_app, IH, map_map; cbn [unit_char]; now rewrite map_id.
    - cbn [app map unit_char]; now rewrite IH. }
  split; [exact H|].
  unfold SigmaString.__len__; now rewrite <- H, length_map.
Qed.

(** ** Concatenation and comparison *)

Lemma str_app (a b : list item) (p q r' : bool) :
  SigmaString.__str__ (mkSigmaString (a ++ b) p)
  = SigmaString.__str__ (mkSigmaString a q) ++ SigmaString.__str__ (mkSigmaString b r').
Proof. unfold SigmaString.__str__; cbn [s]; apply flat_map_app. Qed.

Lemma str_of_tokens (w : SigmaString) (p : bool) :
  SigmaString.__str__ (mkSigmaString (s w) p) = SigmaString.__str__ w.
Proof. reflexivity. Qed.

(** X4.  [self + other] returns a new value whose [str] is the [str] of
    [self] followed by the text of the operand, for a [SigmaString], a bare
    [str] or a special character; any other operand gives
    [NotImplemented]. *)
Theorem add_concatenates_str (self : SigmaString) (other : py_value) :
  match operand_str other with
  | Some text =>
      exists w : SigmaString,
        SigmaString.__add__ self other = Returned w
        /\ SigmaString.__str__ w = SigmaString.__str__ self ++ text
        /\ SigmaString.__len__ w = SigmaString.__len__ self + length text
  | None => SigmaString.__add__ self other = NotImplemented
  end.
Proof.
  destruct other as [z|f|text| |k|o]; cbn [operand_str]; try reflexivity.
  - eexists; split; [reflexivity|].
    assert (H : SigmaString.__str__ (mkSigmaString (s self ++ [Str text]) true)
                = SigmaString.__str__ self ++ text).
    { rewrite (str_app (s self) [Str text] true true true), str_of_tokens.
      unfold SigmaString.__str__ at 2; cbn [s flat_map]; now rewrite app_nil_r. }
    split; [exact H|].
    unfold SigmaString.__len__; cbn [SigmaString.__init__ SigmaString.init_finish protected].
    now rewrite H, length_app.
  - eexists; split; [reflexivity|].
    assert (H : SigmaString.__str__ (mkSigmaString (s self ++ [Special k]) true)
                = SigmaString.__str__ self ++ [special_char_mapping k]).
    { now rewrite (str_app (s self) [Special k] true true true), str_of_tokens. }
    split; [exact H|].
    unfold SigmaString.__len__; cbn [SigmaString.__init__ SigmaString.init_finish protected].
    now rewrite H, length_app.
  - eexists; split; [reflexivity|].
    assert (H : SigmaString.__str__ (mkSigmaString (s self ++ s o) true)
                = SigmaString.__str__ self ++ SigmaString.__str__ o).
    { now rewrite (str_app (s self) (s o) true true true), !str_of_tokens. }
    split; [exact H|].
    unfold SigmaString.__len__; cbn [SigmaString.__init__ SigmaString.init_finish protected].
    now rewrite H, length_app.
Qed.

(** X5.  [other + self] with a bare [str] or a special character on the
    left returns a value whose [str] is the operand's text followed by the
    [str] of [self]; [__radd__] accepts no other operand, not even a
    [SigmaString]. *)
Theorem radd_concatenates_str (self : SigmaString) (other : py_value) :
  match other with
  | PyStr _ | PySpecialChars _ =>
      exists (w : SigmaString) (text : str),
        operand_str other = Some text
        /\ SigmaString.__radd__ self other = Returned w
        /\ SigmaString.__str__ w = text ++ SigmaString.__str__ self
  | _ => SigmaString.__radd__ self other = NotImplemented
  end.
Proof.
  destruct other as [z|f|text| |k|o]; try reflexivity.
  - exists (mkSigmaString (Str text :: s self) true), text.
    split; [reflexivity|]; split; reflexivity.
  - exists (mkSigmaString (Special k :: s self) true), [special_char_mapping k].
    split; [reflexivity|]; split; reflexivity.
Qed.

(** X6.  Concatenation never parses its operand: the result of
    [self + other] contains a special character exactly when [self] does or
    the operand is a special character or a [SigmaString] containing one;
    bare text adds none, whatever characters it consists of. *)
Theorem add_contains_special (self : SigmaString) (other : py_value) (w : SigmaString) :
  SigmaString.__add__ self other = Returned w ->
  SigmaString.contains_special w
  = SigmaString.contains_special self || operand_special other.
Proof.
  unfold SigmaString.contains_special.
  destruct other as [z|f|text| |k|o]; cbn [SigmaString.__add__ operand_special];
    try discriminate; intros H; injection H as <-; cbn [s];
    rewrite existsb_app; reflexivity.
Qed.

Lemma add_contains_special_witness :
  SigmaString.contains_special (mkSigmaString [Str (py "a"); Str (py "*?")] true)
  = false.
Proof.
  exact (add_contains_special (tokenize (py "a")) (PyStr (py "*?")) eq_refl).
Defined.

Lemma item_eqb_eq (a b : item) : SigmaString.item_eqb a b = true <-> a = b.
Proof.
  destruct a as [x|k], b as [y|k']; cbn [SigmaString.item_eqb].
  - rewrite str_eqb_eq; split; congruence.
  - split; discriminate.
  - split; discriminate.
  - rewrite SpecialChars_eqb_eq; split; congruence.
Qed.

Lemma tuple_eqb_eq (a b : list item) : SigmaString.tuple_eqb a b = true <-> a = b.
Proof.
  revert b; induction a as [|x a IH]; intros [|y b]; cbn [SigmaString.tuple_eqb];
    try (split; [discriminate | congruence]); [split; reflexivity|].
  rewrite andb_true_iff, item_eqb_eq, IH; split.
  - intros [-> ->]; reflexivity.
  - intros H; injection H as -> ->; auto.
Qed.

(** X7.  [==] between two [SigmaString] values returns whether their token
    sequences are equal; against a raw string it returns whether the token
    sequence equals that of the parsed string, so a parsed value always
    equals the string it was parsed from. *)
Theorem eq_decides_token_equality (self : SigmaString) :
  (forall other : SigmaString,
      exists b : bool,
        SigmaString.__eq__ self (PySigmaString other) = Ok b
        /\ (b = true <-> s self = s other))
  /\ (forall raw : str,
        exists b : bool,
          SigmaString.__eq__ self (PyStr raw) = Ok b
          /\ (b = true <-> s self = s (tokenize raw)))
  /\ (forall raw : str, SigmaString.__eq__ (tokenize raw) (PyStr raw) = Ok true).
Proof.
  split; [|split].
  - intros other; eexists; split; [reflexivity | apply tuple_eqb_eq].
  - intros raw; eexists; split; [reflexivity | apply tuple_eqb_eq].
  - intros raw; cbn [SigmaString.__eq__]; f_equal.
    now apply tuple_eqb_eq.
Qed.

Lemma str_startswith_app (a b rest : str) :
  str_startswith a b = true -> str_startswith (a ++ rest) b = true.
Proof.
  rewrite !str_startswith_prefix; intros [tail ->].
  exists (tail ++ rest); now rewrite app_assoc.
Qed.

Lemma str_endswith_app (a b front : str) :
  str_endswith a b = true -> str_endswith (front ++ a) b = true.
Proof.
  rewrite !str_endswith_suffix; intros [head ->].
  exists (front ++ head); now rewrite app_assoc.
Qed.

Lemma getitem_last_inv {A : Type} (t : list A) (x : A) :
  getitem t (-1) = Ok x -> exists front, t = front ++ [x].
Proof.
  destruct t as [|y t'].
  - rewrite getitem_empty; discriminate.
  - destruct (exists_last (l := y :: t')) as (front & z & E); [discriminate|].
    rewrite E, getitem_last; intros H; injection H as ->; eauto.
Qed.

(** X8.  The boundary tests are sound for the rendered string: whenever
    [startswith] (respectively [endswith]) answers true for a text or a
    special character, the [str] of the value starts (respectively ends)
    with that text or with the designator of that character. *)
Theorem boundary_tests_sound (self : SigmaString) :
  (forall v : str,
      SigmaString.startswith self (PyStr v) = Ok true ->
      str_startswith (SigmaString.__str__ self) v = true)
  /\ (forall v : str,
        SigmaString.endswith self (PyStr v) = Ok true ->
        str_endswith (SigmaString.__str__ self) v = true)
  /\ (forall k : SpecialChars,
        SigmaString.startswith self (PySpecialChars k) = Ok true ->
        str_startswith (SigmaString.__str__ self) [special_char_mapping k] = true)
  /\ (forall k : SpecialChars,
        SigmaString.endswith self (PySpecialChars k) = Ok true ->
        str_endswith (SigmaString.__str__ self) [special_char_mapping k] = true).
Proof.
  destruct self as [t p].
  split; [|split; [|split]].
  - intros v; unfold SigmaString.startswith, SigmaString.__str__; cbn [s].
    destruct t as [|[text|k] rest]; [rewrite getitem_empty; discriminate| |];
      rewrite getitem_first; cbn [bind flat_map]; [|discriminate].
    intros H; injection H as H; now apply str_startswith_app.
  - intros v; unfold SigmaString.endswith; cbn [s].
    destruct (getitem t (-1)) as [c|err] eqn:Hlast; [|discriminate].
    destruct (getitem_last_inv _ Hlast) as [front ->].
    rewrite (str_app front [c] p p p).
    destruct c as [text|k]; cbn [bind]; [|discriminate].
    intros H; injection H as H.
    apply str_endswith_app.
    unfold SigmaString.__str__; cbn [s flat_map]; now rewrite app_nil_r.
  - intros k; unfold SigmaString.startswith, SigmaString.__str__; cbn [s].
    destruct t as [|[text|k'] rest]; [rewrite getitem_empty; discriminate| |];
      rewrite getitem_first; cbn [bind flat_map]; [discriminate|].
    intros H; injection H as H; apply SpecialChars_eqb_eq in H; subst k'.
    cbn [app str_startswith]; now rewrite Ascii.eqb_refl.
  - intros k; unfold SigmaString.endswith; cbn [s].
    destruct (getitem t (-1)) as [c|err] eqn:Hlast; [|discriminate].
    destruct (getitem_last_inv _ Hlast) as [front ->].
    rewrite (str_app front [c] p p p).
    destruct c as [text|k']; cbn [bind]; [discriminate|].
    intros H; injection H as H; apply SpecialChars_eqb_eq in H; subst k'.
    apply str_endswith_app, str_endswith_suffix.
    exists []; reflexivity.
Qed.

Lemma boundary_tests_sound_witness :
  str_startswith (SigmaString.__str__ (tokenize (py "abc*def"))) (py "ab") = true.
Proof.
  destruct (boundary_tests_sound (tokenize (py "abc*def"))) as [Hstart _].
  apply (Hstart (py "ab")); reflexivity.
Defined.

(** ** The serializer on concatenations and the full round trip *)

Lemma body_shifts (escape_char' wildcard_multi wildcard_single : option str)
    (filter_chars escaped_chars : str) (u : unit_item) (out : str) :
  SigmaString.convert_body escape_char' wildcard_multi wildcard_single
                           filter_chars escaped_chars out u
  = (y <- SigmaString.convert_body escape_char' wildcard_multi wildcard_single
                                   filter_chars escaped_chars [] u ;;
     Ok (out ++ y)).
Proof.
  destruct u as [c|[|]]; cbn [SigmaString.convert_body].
  - destruct (char_in c filter_chars); cbn [bind]; [now rewrite app_nil_r|].
    destruct (char_in c escaped_chars); cbn [bind app]; [|reflexivity].
    destruct escape_char' as [e|]; cbn [SigmaString.iadd bind app]; [|reflexivity].
    now rewrite <- app_assoc.
  - destruct wildcard_multi; reflexivity.
  - destruct wildcard_single; reflexivity.
Qed.

Lemma loop_shifts (escape_char' wildcard_multi wildcard_single : option str)
    (filter_chars escaped_chars : str) (units : list unit_item) :
  forall out : str,
    SigmaString.for_loop
      (SigmaString.convert_body escape_char' wildcard_multi wildcard_single
                                filter_chars escaped_chars) units out
    = (y <- SigmaString.for_loop
              (SigmaString.convert_body escape_char' wildcard_multi wildcard_single
                                        filter_chars escaped_chars) units [] ;;
       Ok (out ++ y)).
Proof.
  induction units as [|u units IH]; intros out; cbn [SigmaString.for_loop bind].
  - now rewrite app_nil_r.
  - rewrite (body_shifts _ _ _ _ _ u out).
    destruct (SigmaString.convert_body _ _ _ _ _ [] u) as [y|err]; cbn [bind];
      [|reflexivity].
    rewrite (IH (out ++ y)), (IH y).
    match goal with
    | |- context [SigmaString.for_loop ?body units []] =>
        destruct (SigmaString.for_loop body units []) as [z|err]
    end; cbn [bind]; [|reflexivity].
    now rewrite app_assoc.
Qed.

(** X9.  [convert] distributes over concatenation, for every choice of its
    arguments: converting [a + b] gives the conversion of [a] followed by
    the conversion of [b], and fails with the first failure of the two. *)
Theorem convert_of_concatenation (a b w : SigmaString)
    (escape_char' wildcard_multi wildcard_single : option str)
    (add_escaped filter_chars : str) :
  SigmaString.__add__ a (PySigmaString b) = Returned w ->
  SigmaString.convert w escape_char' wildcard_multi wildcard_single
                      add_escaped filter_chars
  = (x <- SigmaString.convert a escape_char' wildcard_multi wildcard_single
                              add_escaped filter_chars ;;
     y <- SigmaString.convert b escape_char' wildcard_multi wildcard_single
                              add_escaped filter_chars ;;
     Ok (x ++ y)).
Proof.
  intros H; injection H as <-.
  unfold SigmaString.convert, SigmaString.__iter__; cbn [s].
  rewrite flat_map_app, for_loop_app.
  match goal with
  | |- context [SigmaString.for_loop ?body (flat_map ?f (s a)) []] =>
      destruct (SigmaString.for_loop body (flat_map f (s a)) []) as [x|err]
  end; cbn [bind]; [|reflexivity].
  apply loop_shifts.
Qed.

Lemma convert_of_concatenation_witness :
  convert_default (mkSigmaString [Str (py "a?"); Special WILDCARD_MULTI;
                                  Special WILDCARD_SINGLE; Str (py "b")] true)
  = Ok (py "a\?*?b").
Proof.
  unfold convert_default; etransitivity.
  - apply (@convert_of_concatenation (tokenize (py "a\?*")) (tokenize (py "?b"))).
    reflexivity.
  - reflexivity.
Defined.

(** X10.  With an escape character given, [convert] raises
    [SigmaValueError] exactly on the values that contain a wildcard whose
    representation is [None], and returns a string on all other values. *)
Theorem convert_fails_on_unsupported_only (self : SigmaString) (e : str)
    (wildcard_multi wildcard_single : option str) (add_escaped filter_chars : str) :
  if unsupported_wildcard wildcard_multi wildcard_single (s self)
  then SigmaString.convert self (Some e) wildcard_multi wildcard_single
                           add_escaped filter_chars = Raise SigmaValueError
  else exists out : str,
      SigmaString.convert self (Some e) wildcard_multi wildcard_single
                          add_escaped filter_chars = Ok out.
Proof. apply convert_value_error_iff. Qed.

Lemma escaped_set_not_plain (c : ascii) :
  char_in c (py "*" ++ py "?" ++ py "\") = negb (plain_char c).
Proof.
  change (py "*" ++ py "?" ++ py "\") with ["*"%char; "?"%char; escape_char].
  unfold char_in, plain_char, is_designator, char_mapping; cbn [existsb].
  destruct (Ascii.eqb c "*"), (Ascii.eqb c "?"), (Ascii.eqb c escape_char);
    reflexivity.
Qed.

Lemma spec_convert_literal (text : str) :
  spec_convert (spec_emit (py "\") (Some (py "*")) (Some (py "?")) (py "\") [])
               (map Char text)
  = Ok (flat_map escape_literal text).
Proof.
  induction text as [|c text IH]; [reflexivity|].
  cbn [map spec_convert flat_map]; rewrite IH.
  cbn [spec_emit char_in existsb SigmaString.or_empty].
  fold (char_in c (py "*" ++ py "?" ++ py "\")).
  rewrite escaped_set_not_plain; unfold escape_literal.
  destruct (plain_char c); reflexivity.
Qed.

Lemma convert_renders (t : list item) (p : bool) :
  SigmaString.convert (mkSigmaString t p) (Some (py "\")) (Some (py "*"))
                      (Some (py "?")) (py "\") []
  = Ok (rendered t).
Proof.
  rewrite convert_refines_escape.
  induction t as [|[text|k] t IH].
  - reflexivity.
  - rewrite (iter_cons (Str text) t p p), spec_convert_app, spec_convert_literal, IH.
    reflexivity.
  - rewrite (iter_cons (Special k) t p p).
    cbn [app spec_convert]; rewrite IH.
    destruct k; reflexivity.
Qed.

Lemma spec_scan_escaped_text (text : str) :
  forall buffer rest,
    spec_scan normal buffer (flat_map escape_literal text ++ rest)
    = spec_scan normal (buffer ++ text) rest.
Proof.
  induction text as [|c text IH]; intros buffer rest; cbn [flat_map].
  - now rewrite app_nil_r.
  - rewrite <- app_assoc.
    unfold escape_literal at 1, plain_char, is_designator.
    destruct (char_mapping c) as [k|] eqn:Hmap; cbn [negb andb].
    + cbn [app spec_scan]; unfold is_designator.
      rewrite Ascii.eqb_refl, Hmap; cbn [orb].
      now rewrite IH, <- app_assoc.
    + destruct (Ascii.eqb c escape_char) eqn:Hesc; cbn [negb app spec_scan].
      * unfold is_designator.
        rewrite Ascii.eqb_refl, Hmap, Hesc; cbn [orb].
        now rewrite IH, <- app_assoc.
      * rewrite Hesc, Hmap.
        now rewrite IH, <- app_assoc.
Qed.

Lemma spec_scan_rendered (t : list item) :
  forall buffer : str,
    canonical t = true ->
    buffer = [] \/ starts_with_run t = false ->
    spec_scan normal buffer (rendered t) = flush buffer ++ t.
Proof.
  induction t as [|[text|k] t IH]; intros buffer Hcan Hbuf.
  - cbn [rendered flat_map spec_scan]; now rewrite app_nil_r.
  - change (rendered (Str text :: t))
      with (flat_map escape_literal text ++ rendered t).
    destruct Hbuf as [-> | Hbuf]; [|discriminate].
    cbn [canonical] in Hcan.
    apply andb_true_iff in Hcan as [Hcan Ht].
    apply andb_true_iff in Hcan as [Hne Hrun].
    rewrite spec_scan_escaped_text, IH; [| assumption |right; now apply negb_true_iff].
    destruct text; [discriminate | reflexivity].
  - change (rendered (Special k :: t))
      with (special_char_mapping k :: rendered t).
    rewrite spec_scan_special.
    now rewrite (IH [] Hcan (or_introl eq_refl)).
Qed.

(** X11.  With the backslash added to the escaped characters and nothing
    filtered, [convert] under the default escape character and wildcard
    representations is inverse to the tokenizer: for every value of
    tokenizer shape it returns the rendering with every literal designator
    and backslash escaped, and tokenizing that string gives the value's
    token sequence; so parsing, converting and parsing again returns the
    first parse, for every raw string. *)
Theorem convert_then_tokenize :
  (forall w : SigmaString,
      canonical (s w) = true ->
      SigmaString.convert w (Some (py "\")) (Some (py "*")) (Some (py "?"))
                          (py "\") []
      = Ok (rendered (s w))
      /\ s (tokenize (rendered (s w))) = s w)
  /\ (forall raw : str,
        exists out : str,
          SigmaString.convert (tokenize raw) (Some (py "\")) (Some (py "*"))
                              (Some (py "?")) (py "\") []
          = Ok out
          /\ s (tokenize out) = s (tokenize raw)).
Proof.
  assert (Hshape : forall w : SigmaString,
             canonical (s w) = true ->
             SigmaString.convert w (Some (py "\")) (Some (py "*")) (Some (py "?"))
                                 (py "\") []
             = Ok (rendered (s w))
             /\ s (tokenize (rendered (s w))) = s w).
  { intros [t p] Hcan; cbn [s] in *; split; [apply convert_renders|].
    rewrite tokenize_spec_scan; unfold spec_tokenize.
    now rewrite spec_scan_rendered by auto. }
  split; [exact Hshape|].
  intros raw; exists (rendered (s (tokenize raw))).
  apply Hshape, tokenize_canonical.
Qed.

Lemma convert_then_tokenize_witness :
  SigmaString.convert (tokenize (py "a\\*b\*c\q")) (Some (py "\")) (Some (py "*"))
                      (Some (py "?")) (py "\") []
  = Ok (py "a\\*b\*c\\q")
  /\ s (tokenize (py "a\\*b\*c\\q")) = s (tokenize (py "a\\*b\*c\q")).
Proof.
  destruct convert_then_tokenize as [Hshape _].
  apply (Hshape (tokenize (py "a\\*b\*c\q"))); reflexivity.
Defined.

(** ** Numbers and the dispatcher *)

(** X12.  Normalization is symmetric about zero: if a float is normalized
    to [n], its negation is normalized to [-n] (truncation, unlike
    rounding down, treats both signs alike); where the one fails the other
    fails in the same way. *)
Theorem number_of_negated_float (int_of_str : str -> option Z) (f : spec_float) :
  SigmaNumber.__post_init__ int_of_str (PyFloat (SFopp f))
  = match SigmaNumber.__post_init__ int_of_str (PyFloat f) with
    | Ok n => Ok (mkSigmaNumber (- number n))
    | Raise e => Raise e
    end.
Proof.
  unfold SigmaNumber.__post_init__, builtin_int.
  destruct f as [sign|sign| |sign m e]; cbn [SFopp int_of_float number];
    try reflexivity.
  destruct sign; cbn [negb number]; [|reflexivity].
  now rewrite Z.opp_involutive.
Qed.

(** X14.  The dispatcher sends an integer and a finite float to a
    [SigmaNumber], a string to the [SigmaString] parsed from it, never to a
    number, whatever the string looks like, and [None] to [SigmaNull]; it
    returns [None] for a value of any other type; and it raises only for an
    infinite float ([OverflowError]) or NaN ([SigmaValueError]). *)
Theorem sigma_type_dispatch (int_of_str : str -> option Z) (v : py_value) :
  sigma_type int_of_str v
  = match v with
    | PyInt z => Ok (Some (OfSigmaNumber (mkSigmaNumber z)))
    | PyFloat f =>
        if is_finite_float f
        then Ok (Some (OfSigmaNumber
                         (mkSigmaNumber (truncate_toward_zero (float_value f)))))
        else match f with
             | S754_nan => Raise SigmaValueError
             | _ => Raise OverflowError
             end
    | PyStr text => Ok (Some (OfSigmaString (tokenize text)))
    | PyNone => Ok (Some (OfSigmaNull mkSigmaNull))
    | PySpecialChars _ | PySigmaString _ => Ok None
    end.
Proof.
  destruct v as [z|f|text| |k|o]; try reflexivity.
  unfold sigma_type; cbn [type_map sigma_type_loop isinstance call_class].
  unfold SigmaNumber.__post_init__, builtin_int.
  destruct (is_finite_float f) eqn:Hfin.
  - now rewrite int_of_float_truncates.
  - destruct f; try discriminate; reflexivity.
Qed.

(** ** Escaping with single-character delimiters *)

Lemma escape_each_length (special : str) (e : ascii) (text : str) :
  length (escape_each special e text) = length text + count_in special text.
Proof.
  unfold escape_each, count_in.
  induction text as [|c text IH]; [reflexivity|].
  cbn [flat_map filter]; rewrite length_app, IH.
  destruct (char_in c special); cbn [length]; lia.
Qed.

Lemma escape_each_unchanged (special : str) (e : ascii) (text : str) :
  forallb (fun c => negb (char_in c special)) text = true ->
  escape_each special e text = text.
Proof.
  unfold escape_each.
  induction text as [|c text IH]; [reflexivity|].
  cbn [forallb flat_map]; intros H; apply andb_true_iff in H as [Hc Htext].
  apply negb_true_iff in Hc; rewrite Hc, (IH Htext); reflexivity.
Qed.

Lemma drop_escape_each (special : str) (e : ascii) (text : str) :
  drop_escapes e (escape_each (special ++ [e]) e text) = text.
Proof.
  unfold escape_each.
  induction text as [|c text IH]; [reflexivity|].
  cbn [flat_map].
  destruct (char_in c (special ++ [e])) eqn:Hin; cbn [app drop_escapes].
  - now rewrite Ascii.eqb_refl, IH.
  - unfold char_in in Hin; rewrite existsb_app in Hin.
    apply orb_false_iff in Hin as [_ Hin]; cbn [existsb] in Hin.
    rewrite orb_false_r in Hin; now rewrite Hin, IH.
Qed.

(** X15.  With single-character delimiters nothing is lost by escaping:
    dropping every inserted escape character, and keeping the character
    after it, gives the stored pattern back; so two different patterns are
    never escaped to the same string. *)
Theorem escape_can_be_undone (special : str) (e : ascii) :
  (forall self : SigmaRegularExpression,
      drop_escapes e
        (SigmaRegularExpression.escape self (map (fun d => [d]) special) [e])
      = regexp self)
  /\ (forall a b : SigmaRegularExpression,
        SigmaRegularExpression.escape a (map (fun d => [d]) special) [e]
        = SigmaRegularExpression.escape b (map (fun d => [d]) special) [e] ->
        regexp a = regexp b).
Proof.
  assert (Hdrop : forall self : SigmaRegularExpression,
             drop_escapes e
               (SigmaRegularExpression.escape self (map (fun d => [d]) special) [e])
             = regexp self)
    by (intros self; rewrite escape_single_chars; apply drop_escape_each).
  split; [exact Hdrop|].
  intros a b Heq; rewrite <- (Hdrop a), <- (Hdrop b); now rewrite Heq.
Qed.

Lemma escape_can_be_undone_witness :
  regexp (mkSigmaRegularExpression (py "a.b")) = regexp (mkSigmaRegularExpression (py "a.b")).
Proof.
  destruct (escape_can_be_undone (py ".") "\"%char) as [_ Hinj].
  apply Hinj; reflexivity.
Defined.

(** X16.  With single-character delimiters, escaping works character by
    character: the escaped concatenation of two patterns is the
    concatenation of the escaped patterns, the result is longer than the
    pattern by the number of its characters that are a delimiter or the
    escape character, and a pattern without such characters is returned
    unchanged. *)
Theorem escape_is_characterwise (special : str) (e : ascii) :
  (forall p1 p2 : str,
      SigmaRegularExpression.escape (mkSigmaRegularExpression (p1 ++ p2))
                                    (map (fun d => [d]) special) [e]
      = SigmaRegularExpression.escape (mkSigmaRegularExpression p1)
                                      (map (fun d => [d]) special) [e]
        ++ SigmaRegularExpression.escape (mkSigmaRegularExpression p2)
                                         (map (fun d => [d]) special) [e])
  /\ (forall self : SigmaRegularExpression,
        length (SigmaRegularExpression.escape self (map (fun d => [d]) special) [e])
        = length (regexp self) + count_in (special ++ [e]) (regexp self))
  /\ (forall self : SigmaRegularExpression,
        forallb (fun c => negb (char_in c (special ++ [e]))) (regexp self) = true ->
        SigmaRegularExpression.escape self (map (fun d => [d]) special) [e]
        = regexp self).
Proof.
  split; [|split].
  - intros p1 p2; rewrite !escape_single_chars; cbn [regexp].
    apply flat_map_app.
  - intros self; rewrite escape_single_chars; apply escape_each_length.
  - intros self Hnone; rewrite escape_single_chars.
    now apply escape_each_unchanged.
Qed.

Lemma escape_is_characterwise_witness :
  SigmaRegularExpression.escape (mkSigmaRegularExpression (py "abc[0-9]+"))
                                (map (fun d => [d]) (py "./")) ["\"%char]
  = py "abc[0-9]+".
Proof.
  destruct (escape_is_characterwise (py "./") "\"%char) as (_ & _ & Hsame).
  apply (Hsame (mkSigmaRegularExpression (py "abc[0-9]+"))); reflexivity.
Defined.

(** ** The tokenizer and the boundary tests together *)

Lemma spec_scan_first (raw : str) :
  forall (mode : scan_mode) (buffer : str),
    buffer <> [] ->
    exists (tail : str) (more : list item),
      spec_scan mode buffer raw = Str (buffer ++ tail) :: more.
Proof.
  assert (Hgrow : forall (buffer extra tail : str) (more t : list item),
             t = Str ((buffer ++ extra) ++ tail) :: more ->
             exists tail' more', t = Str (buffer ++ tail') :: more').
  { intros buffer extra tail more t ->.
    exists (extra ++ tail), more; now rewrite app_assoc. }
  assert (Hne : forall buffer extra : str, buffer <> [] -> buffer ++ extra <> [])
    by (intros [|x buffer] extra H; [congruence | discriminate]).
  induction raw as [|c raw IH]; intros mode buffer Hbuf; cbn [spec_scan].
  - destruct mode.
    + exists [], []; rewrite app_nil_r.
      destruct buffer; [congruence | reflexivity].
    + exists [escape_char], [].
      destruct buffer; [congruence | reflexivity].
  - destruct mode.
    + destruct (Ascii.eqb c escape_char); [now apply IH|].
      destruct (char_mapping c) as [k|].
      * exists [], (Special k :: spec_scan normal [] raw); rewrite app_nil_r.
        destruct buffer; [congruence | reflexivity].
      * destruct (IH normal (buffer ++ [c]) (Hne _ _ Hbuf)) as (tail & more & H).
        exact (Hgrow _ _ _ _ _ H).
    + destruct (is_designator c || Ascii.eqb c escape_char).
      * destruct (IH normal (buffer ++ [c]) (Hne _ _ Hbuf)) as (tail & more & H).
        exact (Hgrow _ _ _ _ _ H).
      * destruct (IH normal (buffer ++ [escape_char; c]) (Hne _ _ Hbuf))
          as (tail & more & H).
        exact (Hgrow _ _ _ _ _ H).
Qed.

(** X17.  What a raw string begins with decides [startswith] on the parsed
    value: after a non-empty plain prefix the value starts with that text;
    after an unescaped designator it starts with that special character;
    and after an escape character followed by any character it starts with
    text, so that it starts with no special character. *)
Theorem startswith_of_parsed :
  (forall v rest : str,
      v <> [] ->
      forallb plain_char v = true ->
      SigmaString.startswith (tokenize (v ++ rest)) (PyStr v) = Ok true)
  /\ (forall (k : SpecialChars) (rest : str),
        SigmaString.startswith (tokenize (special_char_mapping k :: rest))
                               (PySpecialChars k) = Ok true)
  /\ (forall (c : ascii) (rest : str) (k : SpecialChars),
        SigmaString.startswith (tokenize (escape_char :: c :: rest))
                               (PySpecialChars k) = Ok false).
Proof.
  split; [|split].
  - intros v rest Hne Hplain.
    unfold SigmaString.startswith.
    rewrite tokenize_spec_scan; unfold spec_tokenize.
    rewrite spec_scan_plain by assumption; cbn [app].
    destruct (spec_scan_first rest normal Hne) as (tail & more & ->).
    rewrite getitem_first; cbn [bind]; f_equal.
    apply str_startswith_prefix; now exists tail.
  - intros k rest; unfold SigmaString.startswith.
    rewrite tokenize_spec_scan; unfold spec_tokenize.
    rewrite spec_scan_special; cbn [flush app].
    rewrite getitem_first; cbn [bind]; f_equal.
    now apply SpecialChars_eqb_eq.
  - intros c rest k; unfold SigmaString.startswith.
    rewrite tokenize_spec_scan; unfold spec_tokenize.
    cbn [spec_scan app]; rewrite Ascii.eqb_refl.
    destruct (is_designator c || Ascii.eqb c escape_char).
    + destruct (@spec_scan_first rest normal [c]) as (tail & more & ->);
        [discriminate|].
      now rewrite getitem_first.
    + destruct (@spec_scan_first rest normal [escape_char; c]) as (tail & more & ->);
        [discriminate|].
      now rewrite getitem_first.
Qed.

Lemma startswith_of_parsed_witness :
  SigmaString.startswith (tokenize (py "C:" ++ py "\Windows\*.exe")) (PyStr (py "C:"))
  = Ok true.
Proof.
  destruct startswith_of_parsed as [Hplain _].
  apply (Hplain (py "C:") (py "\Windows\*.exe")); [discriminate | reflexivity].
Defined.

(** X18.  In a parsed value no literal run is empty and no two literal
    runs are adjacent: the text between two wildcards is always one run. *)
Theorem tokenize_merges_runs (raw : str) : canonical (s (tokenize raw)) = true.
Proof. apply tokenize_canonical. Qed.

(** ** The serializer against the specification's wording *)

Lemma char_in_occurs (c : ascii) (chars : str) : char_in c chars = occurs_in c chars.
Proof.
  unfold char_in, occurs_in.
  destruct (in_dec ascii_dec c chars) as [Hin | Hout].
  - apply existsb_exists; exists c; split; [exact Hin | apply Ascii.eqb_refl].
  - apply not_true_is_false; intros H.
    apply existsb_exists in H as (d & Hd & Heq).
    apply Ascii.eqb_eq in Heq; subst d; contradiction.
Qed.

Lemma spec_emit_literal (e : str) (wildcard_multi wildcard_single : option str)
    (add_escaped filter_chars : str) (c : ascii) :
  spec_emit e wildcard_multi wildcard_single add_escaped filter_chars (Char c)
  = Ok (spec_literal e wildcard_multi wildcard_single add_escaped filter_chars c).
Proof.
  unfold spec_emit, spec_literal.
  rewrite <- !char_in_occurs.
  destruct (char_in c filter_chars); [reflexivity|].
  assert (Hset : char_in c (SigmaString.or_empty wildcard_multi
                            ++ SigmaString.or_empty wildcard_single ++ add_escaped)
                 = char_in c (repr_chars wildcard_multi)
                   || char_in c (repr_chars wildcard_single)
                   || char_in c add_escaped).
  { unfold char_in; rewrite !existsb_app, orb_assoc.
    destruct wildcard_multi, wildcard_single; reflexivity. }
  rewrite Hset.
  destruct (char_in c (repr_chars wildcard_multi)
            || char_in c (repr_chars wildcard_single) || char_in c add_escaped);
    reflexivity.
Qed.

Lemma spec_emit_wildcard (e : str) (wildcard_multi wildcard_single : option str)
    (add_escaped filter_chars : str) (k : SpecialChars) :
  spec_emit e wildcard_multi wildcard_single add_escaped filter_chars (Wild k)
  = spec_wildcard wildcard_multi wildcard_single k.
Proof. destruct k, wildcard_multi, wildcard_single; reflexivity. Qed.

Lemma spec_convert_run (e : str) (wildcard_multi wildcard_single : option str)
    (add_escaped filter_chars : str) (text : str) :
  spec_convert (spec_emit e wildcard_multi wildcard_single add_escaped filter_chars)
               (map Char text)
  = Ok (flat_map (spec_literal e wildcard_multi wildcard_single
                               add_escaped filter_chars) text).
Proof.
  induction text as [|c text IH]; [reflexivity|].
  cbn [map spec_convert flat_map]; now rewrite spec_emit_literal, IH.
Qed.

(** X19.  With an escape character given, [convert] returns what the
    specification of the serializer describes, token by token: for a
    literal run, character by character, nothing for a character of
    [filter_chars], the escape character and the character for a character
    that occurs in the multi-wildcard string, the single-wildcard string or
    [add_escaped], and the character alone otherwise; for a wildcard its
    string, or [SigmaValueError] if that is [None]. *)
Theorem convert_follows_specification (self : SigmaString) (e : str)
    (wildcard_multi wildcard_single : option str) (add_escaped filter_chars : str) :
  SigmaString.convert self (Some e) wildcard_multi wildcard_single
                      add_escaped filter_chars
  = spec_serialize
      (spec_literal e wildcard_multi wildcard_single add_escaped filter_chars)
      (spec_wildcard wildcard_multi wildcard_single)
      (s self).
Proof.
  rewrite convert_refines_escape.
  destruct self as [t p]; cbn [s].
  induction t as [|[text|k] t IH]; [reflexivity| |].
  - rewrite (iter_cons (Str text) t p p), spec_convert_app, spec_convert_run, IH.
    cbn [bind spec_serialize].
    destruct (spec_serialize _ _ t); reflexivity.
  - rewrite (iter_cons (Special k) t p p).
    cbn [app spec_convert spec_serialize]; rewrite IH, spec_emit_wildcard.
    destruct (spec_wildcard wildcard_multi wildcard_single k); [|reflexivity].
    cbn [bind]; destruct (spec_serialize _ _ t); reflexivity.
Qed.
